(** * EventEmitter (src/event-emitter.js): a shallow embedding and its properties

    The emitter keeps one hidden object, the registry, whose properties
    map an event name to an array of subscriptions [{ context, handler }].
    [on] pushes, [off] splices the first match out, [once] registers a
    self-removing wrapper and [emit] walks the live array with [forEach].

    The embedding keeps what the methods can observe of JavaScript:
    - values are compared with [==] (loose equality);
    - the registry is an ordinary object, so a property read falls back to
      the prototype chain and an assignment to [__proto__] re-parents it;
    - arrays are shared mutable objects, held in a heap and named by
      reference, because [emit] iterates the very array that a handler
      may shrink through [off];
    - handlers are callbacks that may call back into the emitter or throw;
      every JavaScript call consumes one unit of call depth (fuel). *)

From stdpp Require Import gmap strings list fin_maps pretty.

#[local] Open Scope string_scope.
#[local] Open Scope list_scope.
#[local] Open Scope nat_scope.

(** ** Values *)

(** The values that reach the emitter as handlers, contexts and arguments.
    [VObject] is a plain object (no [call] property) and [VFunction] a
    function written by the caller, both known by reference.
    [VOnceHandler w name handler context] is the closure [onceHandler]
    that [once] creates: [w] is its identity, the other three are the
    variables it captures.  Strings, numbers and booleans are left out:
    [==] between one of them and an object runs the object's own
    conversion methods. *)
Inductive value : Type :=
  | VUndefined
  | VNull
  | VObject (o : nat)
  | VFunction (f : nat)
  | VOnceHandler (w : nat) (name : string) (handler context : value).

#[global] Instance value_eq_dec : EqDecision value.
Proof. solve_decision. Defined.

(** [a == b] *)
Definition loose_eq (a b : value) : bool :=
  match a, b with
  | (VUndefined | VNull), (VUndefined | VNull) => true
  | VObject o1, VObject o2 => Nat.eqb o1 o2
  | VFunction f1, VFunction f2 => Nat.eqb f1 f2
  | VOnceHandler w1 _ _ _, VOnceHandler w2 _ _ _ => Nat.eqb w1 w2
  | _, _ => false
  end.

(** A parameter declared [context = null]: [undefined] takes the default. *)
Definition default_null (v : value) : value :=
  match v with
  | VUndefined => VNull
  | _ => v
  end.

(** [{ context, handler }] *)
Record subscription : Type := Subscription {
  context : value;
  handler : value
}.

#[global] Instance subscription_eq_dec : EqDecision subscription.
Proof. solve_decision. Defined.

(** The function returned by [this.off.bind(this, name, handler, context)]:
    its three bound arguments. *)
Record token : Type := Token {
  bound_name : string;
  bound_handler : value;
  bound_context : value
}.

(** One call of a caller-written function, as a spy would record it:
    which function, the [this] it was called with, the arguments. *)
Record invocation : Type := Invocation {
  callee : nat;
  receiver : value;
  arguments : list value
}.

Inductive exn : Type :=
  | TypeError
  | Thrown (v : value).

(** What the body of a caller-written function may do: call the four
    methods of the emitter, or throw. *)
Inductive stmt : Type :=
  | SOn (name : string) (handler context : value)
  | SOnce (name : string) (handler context : value)
  | SOff (name : string) (handler context : value)
  | SEmit (name : string) (args : list value)
  | SThrow (v : value).

(** ** State *)

(** [own] and [proto] are the registry object ([this[SUBSCRIPTIONS_SYMBOL]]):
    its own properties, each holding a reference to an array, and its
    prototype, [None] for [Object.prototype] and [Some r] once
    [registry.__proto__ = r] ran.  [heap] holds the arrays, [next] is the
    next fresh reference and [log] the calls of caller-written functions
    so far, oldest first. *)
Record state : Type := State {
  own : gmap string nat;
  proto : option nat;
  heap : gmap nat (list subscription);
  next : nat;
  log : list invocation
}.

(** [new EventEmitter()] *)
Definition new_emitter : state :=
  {| own := ∅; proto := None; heap := ∅; next := 0; log := [] |}.

(** Field updates. *)
Definition set_own (f : gmap string nat → gmap string nat) (st : state) : state :=
  {| own := f (own st); proto := proto st; heap := heap st;
     next := next st; log := log st |}.

Definition set_proto (p : option nat) (st : state) : state :=
  {| own := own st; proto := p; heap := heap st;
     next := next st; log := log st |}.

Definition set_heap (f : gmap nat (list subscription) → gmap nat (list subscription))
    (st : state) : state :=
  {| own := own st; proto := proto st; heap := f (heap st);
     next := next st; log := log st |}.

Definition set_next (n : nat) (st : state) : state :=
  {| own := own st; proto := proto st; heap := heap st;
     next := n; log := log st |}.

Definition set_log (l : list invocation) (st : state) : state :=
  {| own := own st; proto := proto st; heap := heap st;
     next := next st; log := l |}.

(** ** Results and sequencing *)

Inductive outcome (A : Type) : Type :=
  | Returns (a : A)
  | Throws (e : exn)
  | Exhausted.
Arguments Returns {A} a.
Arguments Throws {A} e.
Arguments Exhausted {A}.

(** A computation changes the state and returns, throws, or runs out of
    call depth; the state it leaves is kept in all three cases. *)
Definition M (A : Type) : Type := state → outcome A * state.

#[global] Instance M_ret : MRet M := λ A a st, (Returns a, st).

#[global] Instance M_bind : MBind M := λ A B k m st,
  match m st with
  | (Returns a, st') => k a st'
  | (Throws e, st') => (Throws e, st')
  | (Exhausted, st') => (Exhausted, st')
  end.

(** [throw e] *)
Definition throw {A : Type} (e : exn) : M A := λ st, (Throws e, st).

(** The call depth is used up. *)
Definition exhausted {A : Type} : M A := λ st, (Exhausted, st).

(** A pure step that may throw. *)
Definition lift {A : Type} (x : exn + A) : M A :=
  match x with
  | inl e => throw e
  | inr a => mret a
  end.

(** ** The registry object and the arrays *)

(** Property names of [Object.prototype]. *)
Definition object_prototype_keys : list string :=
  [ "constructor"; "hasOwnProperty"; "isPrototypeOf"; "propertyIsEnumerable";
    "toLocaleString"; "toString"; "valueOf"; "__proto__";
    "__defineGetter__"; "__defineSetter__"; "__lookupGetter__";
    "__lookupSetter__" ].

(** Property names of [Array.prototype], up to ES2023. *)
Definition array_prototype_keys : list string :=
  [ "at"; "concat"; "copyWithin"; "entries"; "every"; "fill"; "filter";
    "find"; "findIndex"; "findLast"; "findLastIndex"; "flat"; "flatMap";
    "forEach"; "includes"; "indexOf"; "join"; "keys"; "lastIndexOf";
    "map"; "pop"; "push"; "reduce"; "reduceRight"; "reverse"; "shift";
    "slice"; "some"; "sort"; "splice"; "toReversed"; "toSorted";
    "toSpliced"; "unshift"; "values"; "with" ].

(** [name] is one of [keys]. *)
Definition mem (name : string) (keys : list string) : bool :=
  existsb (String.eqb name) keys.

(** [name] is the decimal form of an index below [n]. *)
Definition is_index_below (name : string) (n : nat) : bool :=
  existsb (λ i, String.eqb name (pretty i)) (seq 0 n).

(** What [registry[name]] evaluates to, as far as the methods tell values
    apart: an array, a falsy value ([undefined], or the number 0), or
    anything else (a truthy value that is not an array and has no
    [forEach] and no [find]). *)
Inductive looked : Type :=
  | Arr (r : nat)
  | Falsy
  | Other.

(** The contents of the array object [r]. *)
Definition array (st : state) (r : nat) : list subscription :=
  default [] (heap st !! r).

(** The value found along the prototype chain.  With an array [r] as the
    prototype the chain is [r], [Array.prototype], [Object.prototype];
    [__proto__] is the accessor of [Object.prototype], which answers with
    the prototype itself. *)
Definition inherited (st : state) (name : string) : looked :=
  match proto st with
  | None => if mem name object_prototype_keys then Other else Falsy
  | Some r =>
      if String.eqb name "__proto__" then Arr r
      else if String.eqb name "length" then
        match array st r with [] => Falsy | _ :: _ => Other end
      else if is_index_below name (length (array st r)) then Other
      else if mem name array_prototype_keys then Other
      else if mem name object_prototype_keys then Other
      else Falsy
  end.

(** [registry[name]] *)
Definition reg_get (st : state) (name : string) : looked :=
  if String.eqb name "__proto__" then inherited st name
  else match own st !! name with
       | Some r => Arr r
       | None => inherited st name
       end.

(** The same, as a step of a method. *)
Definition registry_get (name : string) : M looked :=
  λ st, (Returns (reg_get st name), st).

(** [registry[name] = r].  Every inherited property is a writable data
    property, so the assignment creates or updates an own property,
    except for the accessor [__proto__], whose setter re-parents the
    registry. *)
Definition registry_set (name : string) (r : nat) : M unit :=
  λ st,
    if String.eqb name "__proto__" then (Returns (), set_proto (Some r) st)
    else (Returns (), set_own <[name := r]> st).

(** [delete registry[name]]: removes an own property, if there is one. *)
Definition registry_delete (name : string) : M unit :=
  λ st,
    if String.eqb name "__proto__" then (Returns (), st)
    else (Returns (), set_own (delete name) st).

(** A new reference, for an array or for a closure. *)
Definition fresh : M nat :=
  λ st, (Returns (next st), set_next (S (next st)) st).

(** The array [r] takes the contents [l]; [read_array r] reads them. *)
Definition write_array (r : nat) (l : list subscription) : M unit :=
  λ st, (Returns (), set_heap <[r := l]> st).

Definition read_array (r : nat) : M (list subscription) :=
  λ st, (Returns (array st r), st).

(** [[]] *)
Definition new_array : M nat :=
  r ← fresh; write_array r [];; mret r.

(** [array.push(s)] *)
Definition push (r : nat) (s : subscription) : M unit :=
  l ← read_array r; write_array r (l ++ [s]).

(** [array.indexOf(s)]; [None] stands for -1. *)
Fixpoint indexOf (s : subscription) (l : list subscription) : option nat :=
  match l with
  | [] => None
  | x :: l' => if decide (x = s) then Some 0 else S <$> indexOf s l'
  end.

(** [array.splice(index, 1)]; the start -1 counts from the end. *)
Definition splice (r : nat) (index : option nat) : M unit :=
  l ← read_array r;
  match index with
  | Some i => write_array r (delete i l)
  | None => write_array r (delete (pred (length l)) l)
  end.

(** The caller's function [f] is entered: the call is recorded. *)
Definition record (f : nat) (this : value) (args : list value) : M unit :=
  λ st, (Returns (), set_log (log st ++ [Invocation f this args]) st).

(** ** The methods *)

(** [on(name, handler, context = null)] *)
Definition on (name : string) (handler context : value) : M token :=
  let context := default_null context in
  v ← registry_get name;
  arr ← match v with Arr r => mret r | _ => new_array end;
  registry_set name arr;;
  v' ← registry_get name;
  match v' with
  | Arr r => push r {| context := context; handler := handler |}
  | _ => throw TypeError
  end;;
  mret (Token name handler context).

(** [handler[ORIGINAL_SYMBOL]]: a property read, which throws on
    [undefined] and [null]; only the closures made by [once] carry the
    property. *)
Definition original (handler : value) : exn + value :=
  match handler with
  | VUndefined | VNull => inl TypeError
  | VOnceHandler _ _ h _ => inr h
  | VObject _ | VFunction _ => inr VUndefined
  end.

(** The arrow function [matchesSubscription] of [off], closed over the
    parameters [handler] and [context] of [off] (here [h] and [c]). *)
Definition matchesSubscription (h c : value)
    (subscription : subscription) : exn + bool :=
  let matchesContext := loose_eq subscription.(context) c in
  if loose_eq subscription.(handler) h then
    inr (true && matchesContext)
  else
    match original subscription.(handler) with
    | inl e => inl e
    | inr tag => inr (loose_eq tag h && matchesContext)
    end.

(** [array.find(predicate)] *)
Fixpoint find (predicate : subscription → exn + bool)
    (l : list subscription) : exn + option subscription :=
  match l with
  | [] => inr None
  | s :: l' =>
      match predicate s with
      | inl e => inl e
      | inr true => inr (Some s)
      | inr false => find predicate l'
      end
  end.

(** [off(name, handler, context = null)] *)
Definition off (name : string) (handler context : value) : M unit :=
  let context := default_null context in
  v ← registry_get name;
  match v with
  | Other => throw TypeError
  | Falsy => registry_delete name
  | Arr r =>
      subscriptions ← read_array r;
      found ← lift (find (matchesSubscription handler context) subscriptions);
      match found with
      | Some s => splice r (indexOf s subscriptions)
      | None => mret ()
      end;;
      subscriptions ← read_array r;
      match subscriptions with
      | [] => registry_delete name
      | _ :: _ => mret ()
      end
  end.

(** Calling the function that [on] returned. *)
Definition invoke (t : token) : M unit :=
  off (bound_name t) (bound_handler t) (bound_context t).

(** [once(name, handler, context)] *)
Definition once (name : string) (handler context : value) : M token :=
  w ← fresh;
  let onceHandler := VOnceHandler w name handler context in
  on name onceHandler context.

(** [array.forEach(callback)]: the length is read once; at each index the
    element is fetched from the array as it is then, and an index the
    array no longer has is passed over. *)
Fixpoint forEach_loop (r : nat) (callback : subscription → M unit)
    (n k : nat) : M unit :=
  match n with
  | 0 => mret ()
  | S n' =>
      l ← read_array r;
      match l !! k with
      | Some s => callback s
      | None => mret ()
      end;;
      forEach_loop r callback n' (S k)
  end.

Definition forEach (r : nat) (callback : subscription → M unit) : M unit :=
  l ← read_array r; forEach_loop r callback (length l) 0.

(** [emit(name, ...args)], given how to call a [handler] with a [this]
    value and arguments. *)
Definition emit_with (call : value → value → list value → M unit)
    (name : string) (args : list value) : M unit :=
  v ← registry_get name;
  match v with
  | Arr r =>
      forEach r (λ subscription,
        call subscription.(handler) subscription.(context) args)
  | Falsy => mret ()
  | Other => throw TypeError
  end.

(** One statement of a caller-written function, given [emit]. *)
Definition exec (emit : string → list value → M unit) (s : stmt) : M unit :=
  match s with
  | SOn name h c => on name h c;; mret ()
  | SOnce name h c => once name h c;; mret ()
  | SOff name h c => off name h c
  | SEmit name args => emit name args
  | SThrow v => throw (Thrown v)
  end.

(** The body of a caller-written function: its statements in turn, up
    to the first that throws. *)
Fixpoint run (emit : string → list value → M unit) (code : list stmt) : M unit :=
  match code with
  | [] => mret ()
  | s :: rest => exec emit s;; run emit rest
  end.

Section Emitter.

(** The body of each caller-written function. *)
Context (body : nat → list stmt).

(** [f.call(this, ...args)] at call depth [fuel].  A caller-written
    function is recorded and its body run; [onceHandler] calls [off()]
    and then [handler.call(context, ...args)]; anything else is not
    callable. *)
Fixpoint call (fuel : nat) (f this : value) (args : list value) : M unit :=
  match fuel with
  | 0 => exhausted
  | S fuel' =>
      match f with
      | VFunction id =>
          record id this args;;
          run (emit_with (call fuel')) (body id)
      | VOnceHandler _ name handler context =>
          invoke (Token name f (default_null context));;
          call fuel' handler context args
      | VUndefined | VNull | VObject _ => throw TypeError
      end
  end.

(** [emit(name, ...args)] *)
Definition emit (fuel : nat) (name : string) (args : list value) : M unit :=
  emit_with (call fuel) name args.

(** Several calls of [emit(name, ...)] in a row, one per argument list,
    by a caller that carries on whatever each of them does. *)
Fixpoint emits (fuel : nat) (name : string) (argss : list (list value))
    (st : state) : state :=
  match argss with
  | [] => st
  | args :: argss' => emits fuel name argss' (emit fuel name args st).2
  end.

(** The callback that [emit] passes to [forEach]. *)
Definition dispatch (fuel : nat) (args : list value) (s : subscription) : M unit :=
  call fuel (handler s) (context s) args.

(** A plain subscription whose handler is a caller's function that
    returns without touching the emitter, like a test spy. *)
Definition spy (s : subscription) : Prop :=
  ∃ f, handler s = VFunction f ∧ body f = [].

(** The states an emitter goes through: a new emitter, then any calls of
    its four methods, whether they return, throw or are cut short.  Calls
    made by handlers during [emit] are part of that [emit]; calling the
    function returned by [on] or [once] is a call of [off]. *)
Inductive reachable : state → Prop :=
  | reachable_new : reachable new_emitter
  | reachable_on st name h c :
      reachable st → reachable (on name h c st).2
  | reachable_once st name h c :
      reachable st → reachable (once name h c st).2
  | reachable_off st name h c :
      reachable st → reachable (off name h c st).2
  | reachable_emit st fuel name args :
      reachable st → reachable (emit fuel name args st).2.

End Emitter.

(** ** Vocabulary of the statements *)

(** The subscription that [on(name, h, c)] pushes. *)
Definition stored (h c : value) : subscription :=
  {| context := default_null c; handler := h |}.

(** The subscriptions listed under a name: the array it holds, if any. *)
Definition subscriptions (st : state) (name : string) : list subscription :=
  match reg_get st name with
  | Arr r => array st r
  | _ => []
  end.

(** The state in which [registry[name]] was assigned the array [r]. *)
Definition assigned (name : string) (r : nat) (st : state) : state :=
  (registry_set name r st).2.

(** The state in which [delete registry[name]] ran. *)
Definition deleted (name : string) (st : state) : state :=
  (registry_delete name st).2.

(** The end of [off]: the property goes when the array [r] is empty. *)
Definition pruned (name : string) (r : nat) (st : state) : state :=
  match array st r with
  | [] => deleted name st
  | _ :: _ => st
  end.

(** The calls that dispatching the plain subscriptions [l] records. *)
Definition dispatched (args : list value) (l : list subscription) : list invocation :=
  flat_map (λ s, match handler s with
                 | VFunction f => [Invocation f (context s) args]
                 | _ => []
                 end) l.

(** The test [matchesSubscription] of [off(name, h, c)] returns [false]
    on every subscription of [l]: none matches, and the test throws at
    none, as it does at a stored [null] or [undefined] handler when [h]
    is neither. *)
Definition unmatched (h c : value) (l : list subscription) : Prop :=
  Forall (λ x, matchesSubscription h (default_null c) x = inr false) l.

(** A subscription made by [on], or holding a value that is no closure. *)
Definition plain (s : subscription) : bool :=
  match handler s with
  | VOnceHandler _ _ _ _ => false
  | _ => true
  end.

(** [v == null] *)
Definition nullish (v : value) : bool := loose_eq v VNull.

(** A subscription made by [once] around [null] or [undefined]. *)
Definition wraps_nullish (s : subscription) : bool :=
  match handler s with
  | VOnceHandler _ _ h _ => nullish h
  | _ => false
  end.

(** How many of the recorded calls are calls of the function [f]. *)
Definition invocations_of (f : nat) (l : list invocation) : nat :=
  length (filter (λ i, callee i = f) l).

(** What every state of an emitter satisfies.  The first field is the
    invariant of the data model; the others say that the registry's
    arrays are distinct allocated objects, which is what keeps the first
    one true when an array is modified in place. *)
Record wf (st : state) : Prop := {
  wf_nonempty : ∀ name r, own st !! name = Some r → array st r ≠ [];
  wf_allocated : ∀ name r, own st !! name = Some r → r < next st;
  wf_proto_allocated : ∀ r, proto st = Some r → r < next st;
  wf_distinct : ∀ n1 n2 r,
    own st !! n1 = Some r → own st !! n2 = Some r → n1 = n2;
  wf_proto_distinct : ∀ name r, own st !! name = Some r → proto st ≠ Some r;
  wf_proto_key : own st !! "__proto__" = None
}.

(** A step that keeps the invariant, however it ends. *)
Definition preserves {A : Type} (m : M A) : Prop :=
  ∀ st, wf st → wf (m st).2.

(** The functions of the examples below: function 0 throws [null], every
    other function is a spy. *)
Definition scenario (f : nat) : list stmt :=
  match f with
  | 0 => [SThrow VNull]
  | S _ => []
  end.

(** The functions of the further examples: function 10 subscribes
    function 1, function 11 unsubscribes function 2, function 12 emits
    the event it handles, function 13 throws an object, function 14
    unsubscribes itself; every other function is a spy. *)
Definition reentrant (f : nat) : list stmt :=
  match f with
  | 10 => [SOn "change" (VFunction 1) VUndefined]
  | 11 => [SOff "change" (VFunction 2) VUndefined]
  | 12 => [SEmit "change" []]
  | 13 => [SThrow (VObject 0)]
  | 14 => [SOff "change" (VFunction 14) VUndefined]
  | _ => []
  end.

(** A value that a caller can hold: the closures made by [once] never
    leave the emitter. *)
Definition closure_free (v : value) : Prop :=
  match v with
  | VOnceHandler _ _ _ _ => False
  | _ => True
  end.

(** A statement that hands the emitter a handler the caller can hold. *)
Definition caller_stmt (s : stmt) : Prop :=
  match s with
  | SOn _ h _ | SOnce _ h _ => closure_free h
  | SOff _ _ _ | SEmit _ _ | SThrow _ => True
  end.

(** A stored handler that is a closure was made before the reference
    [n] was handed out, around a value of the caller. *)
Definition closure_below (n : nat) (s : subscription) : Prop :=
  match handler s with
  | VOnceHandler w _ h _ => w < n ∧ closure_free h
  | _ => True
  end.

(** Every closure stored in an array is older than the next reference. *)
Definition closures_allocated (st : state) : Prop :=
  ∀ r, Forall (closure_below (next st)) (array st r).

(** A step that keeps [closures_allocated], however it ends. *)
Definition keeps {A : Type} (m : M A) : Prop :=
  ∀ st, closures_allocated st → closures_allocated (m st).2.

(** The states an emitter goes through when the handlers given to [on]
    and [once] are values of the caller. *)
Inductive caller_reachable (body : nat → list stmt) : state → Prop :=
  | caller_new : caller_reachable body new_emitter
  | caller_on st name h c :
      closure_free h →
      caller_reachable body st → caller_reachable body (on name h c st).2
  | caller_once st name h c :
      closure_free h →
      caller_reachable body st → caller_reachable body (once name h c st).2
  | caller_off st name h c :
      caller_reachable body st → caller_reachable body (off name h c st).2
  | caller_emit st fuel name args :
      caller_reachable body st →
      caller_reachable body (emit body fuel name args st).2.

(** Closes a goal [Forall (spy body) l] over a concrete list of spies. *)
Ltac spy_list :=
  repeat (apply List.Forall_cons; [eexists; split; reflexivity |]); apply Forall_nil_2.

(** * Properties *)

(** ** Loose equality *)

Lemma loose_eq_refl v : loose_eq v v = true.
Proof. destruct v; simpl; auto using Nat.eqb_refl. Qed.

Lemma default_null_idemp v : default_null (default_null v) = default_null v.
Proof. now destruct v. Qed.

(** ** The registry object *)

Lemma reg_get_Arr st name r :
  reg_get st name = Arr r ↔
  (name = "__proto__" ∧ proto st = Some r) ∨
  (name ≠ "__proto__" ∧ own st !! name = Some r).
Proof.
  unfold reg_get, inherited.
  destruct (String.eqb_spec name "__proto__") as [-> | Hne].
  - destruct (proto st); simpl; split.
    + intros [= ->]; auto.
    + intros [[_ [= ->]] | [? _]]; congruence.
    + discriminate.
    + intros [[_ ?] | [? _]]; congruence.
  - split.
    + destruct (own st !! name) eqn:Hown.
      * intros [= ->]; auto.
      * destruct (proto st); repeat case_match; discriminate.
    + intros [[? _] | [_ ->]]; congruence.
Qed.

(** A name without an own property reads as an array only through
    [__proto__]. *)
Lemma reg_get_absent st name :
  name ≠ "__proto__" → own st !! name = None → ∀ r, reg_get st name ≠ Arr r.
Proof.
  intros Hne Hown r H. apply reg_get_Arr in H as [[? _] | [_ ?]]; congruence.
Qed.

Lemma registry_set_eq name r st :
  registry_set name r st = (Returns (), assigned name r st).
Proof. unfold assigned, registry_set. now destruct (String.eqb _ _). Qed.

Lemma registry_delete_eq name st :
  registry_delete name st = (Returns (), deleted name st).
Proof. unfold deleted, registry_delete. now destruct (String.eqb _ _). Qed.

Lemma reg_get_assigned name r st : reg_get (assigned name r st) name = Arr r.
Proof.
  apply reg_get_Arr. unfold assigned, registry_set.
  destruct (String.eqb_spec name "__proto__") as [-> | Hne]; simpl.
  - now left.
  - right. split; [done |]. apply lookup_insert_eq.
Qed.

Lemma assigned_same name r st : reg_get st name = Arr r → assigned name r st = st.
Proof.
  intros H. apply reg_get_Arr in H as [[-> Hp] | [Hne Ho]];
    unfold assigned, registry_set.
  - simpl. destruct st; simpl in *. now subst.
  - destruct (String.eqb_spec name "__proto__"); [done |]. simpl.
    unfold set_own. rewrite insert_id by done. now destruct st.
Qed.

Lemma array_assigned name r st r' : array (assigned name r st) r' = array st r'.
Proof. unfold assigned, registry_set. now destruct (String.eqb _ _). Qed.

Lemma array_deleted name st r : array (deleted name st) r = array st r.
Proof. unfold deleted, registry_delete. now destruct (String.eqb _ _). Qed.

Lemma array_set_heap_eq r l st : array (set_heap <[r := l]> st) r = l.
Proof. unfold array. simpl. now rewrite lookup_insert_eq. Qed.

Lemma array_set_heap_ne r r' l st :
  r ≠ r' → array (set_heap <[r := l]> st) r' = array st r'.
Proof. intros. unfold array. simpl. now rewrite lookup_insert_ne. Qed.

Lemma array_set_log l st r : array (set_log l st) r = array st r.
Proof. done. Qed.

Lemma reg_get_set_log l st name : reg_get (set_log l st) name = reg_get st name.
Proof. done. Qed.

Lemma reg_get_set_heap_Arr f st name r :
  reg_get st name = Arr r → reg_get (set_heap f st) name = Arr r.
Proof. intros H. apply reg_get_Arr. now apply reg_get_Arr in H. Qed.

Lemma log_assigned name r st : log (assigned name r st) = log st.
Proof. unfold assigned, registry_set. now destruct (String.eqb _ _). Qed.

Lemma log_deleted name st : log (deleted name st) = log st.
Proof. unfold deleted, registry_delete. now destruct (String.eqb _ _). Qed.

Lemma log_pruned name r st : log (pruned name r st) = log st.
Proof. unfold pruned. destruct (array st r); [apply log_deleted | done]. Qed.

Lemma array_pruned name r st r' : array (pruned name r st) r' = array st r'.
Proof. unfold pruned. destruct (array st r); [apply array_deleted | done]. Qed.

Lemma pruned_nonempty name r st : array st r ≠ [] → pruned name r st = st.
Proof. unfold pruned. now destruct (array st r). Qed.

(** ** [on] *)

(** [on] under a name that already holds an array: one push. *)
Lemma on_existing st name h c r :
  reg_get st name = Arr r →
  on name h c st =
    (Returns (Token name h (default_null c)),
     set_heap <[r := array st r ++ [stored h c]]> st).
Proof.
  intros H. unfold on, mbind, M_bind, registry_get, mret, M_ret.
  rewrite H, registry_set_eq, (assigned_same _ _ _ H), H. reflexivity.
Qed.

(** [on] under a name that holds no array: a new array is allocated at
    the next reference and assigned to the name. *)
Lemma on_new st name h c :
  (∀ r, reg_get st name ≠ Arr r) →
  on name h c st =
    (Returns (Token name h (default_null c)),
     set_heap <[next st := [stored h c]]>
       (assigned name (next st) (set_next (S (next st)) st))).
Proof.
  intros H. unfold on, mbind, M_bind, registry_get, mret, M_ret.
  assert (Hfin :
    set_heap <[next st := [] ++ [stored h c]]>
      (assigned name (next st)
         (set_heap <[next st := []]> (set_next (S (next st)) st))) =
    set_heap <[next st := [stored h c]]>
      (assigned name (next st) (set_next (S (next st)) st))).
  { unfold assigned, registry_set.
    destruct (String.eqb name "__proto__"); simpl;
      unfold set_heap, set_own, set_proto; simpl; f_equal; apply insert_insert_eq. }
  destruct (reg_get st name) eqn:E; [now destruct (H r) | |];
    unfold new_array, fresh, write_array, mbind, M_bind, mret, M_ret;
    rewrite registry_set_eq, reg_get_assigned;
    unfold push, mbind, M_bind, read_array, write_array;
    rewrite array_assigned, array_set_heap_eq; f_equal; exact Hfin.
Qed.

(** In both cases [on] returns, and leaves the name holding an array that
    ends with the new subscription. *)
Lemma on_returns st name h c :
  ∃ st', on name h c st = (Returns (Token name h (default_null c)), st').
Proof.
  destruct (reg_get st name) eqn:E.
  - rewrite (on_existing _ _ _ _ _ E). eauto.
  - rewrite on_new by congruence. eauto.
  - rewrite on_new by congruence. eauto.
Qed.

Lemma on_pushes st name h c :
  ∃ r, reg_get (on name h c st).2 name = Arr r ∧
       array (on name h c st).2 r = subscriptions st name ++ [stored h c] ∧
       log (on name h c st).2 = log st.
Proof.
  unfold subscriptions. destruct (reg_get st name) eqn:E.
  - exists r. rewrite (on_existing _ _ _ _ _ E). simpl.
    split; [now apply reg_get_set_heap_Arr |]. split; [apply array_set_heap_eq | done].
  - exists (next st). rewrite on_new by congruence. simpl.
    split; [apply reg_get_set_heap_Arr, reg_get_assigned |].
    split; [apply array_set_heap_eq | simpl; now rewrite log_assigned].
  - exists (next st). rewrite on_new by congruence. simpl.
    split; [apply reg_get_set_heap_Arr, reg_get_assigned |].
    split; [apply array_set_heap_eq | simpl; now rewrite log_assigned].
Qed.

(** ** [find] and [indexOf] *)

Lemma find_app_found p l1 s l2 :
  Forall (λ x, p x = inr false) l1 → p s = inr true →
  find p (l1 ++ s :: l2) = inr (Some s).
Proof.
  intros Hl1 Hs. induction Hl1 as [| x l1 Hx _ IH]; simpl.
  - now rewrite Hs.
  - now rewrite Hx.
Qed.

Lemma find_none p l :
  Forall (λ x, p x = inr false) l → find p l = inr None.
Proof. induction 1 as [| x l Hx _ IH]; simpl; [done | now rewrite Hx]. Qed.

Lemma find_found_inv p l s :
  find p l = inr (Some s) →
  ∃ l1 l2, l = l1 ++ s :: l2 ∧ Forall (λ x, p x = inr false) l1 ∧ p s = inr true.
Proof.
  induction l as [| x l IH]; simpl; [discriminate |].
  destruct (p x) as [e | [|]] eqn:Hx; [discriminate | |].
  - intros [= ->]. exists [], l. auto.
  - intros H. destruct (IH H) as (l1 & l2 & -> & Hl1 & Hs).
    exists (x :: l1), l2. auto.
Qed.

Lemma find_none_inv p l :
  find p l = inr None → Forall (λ x, p x = inr false) l.
Proof.
  induction l as [| x l IH]; simpl; [constructor |].
  destruct (p x) as [e | [|]] eqn:Hx; [discriminate | discriminate |].
  intros H. constructor; auto.
Qed.

(** [indexOf] looks for the object that [find] returned; subscriptions
    are compared here by their fields, which names the same index: an
    earlier subscription with the same fields would have been found
    first. *)
Lemma indexOf_found (p : subscription → exn + bool) l1 s l2 :
  Forall (λ x, p x = inr false) l1 → p s = inr true →
  indexOf s (l1 ++ s :: l2) = Some (length l1).
Proof.
  intros Hl1 Hs. induction Hl1 as [| x l1 Hx _ IH]; simpl.
  - now rewrite decide_True.
  - rewrite decide_False by congruence. now rewrite IH.
Qed.

Lemma delete_middle {A : Type} (l1 : list A) x l2 :
  delete (length l1) (l1 ++ x :: l2) = l1 ++ l2.
Proof. induction l1 as [| y l1 IH]; simpl; [done | now rewrite IH]. Qed.

(** ** [off] *)

(** [off] finds no match: only the closing test on the length runs. *)
Lemma off_no_match st name h c r :
  reg_get st name = Arr r →
  Forall (λ x, matchesSubscription h (default_null c) x = inr false) (array st r) →
  off name h c st = (Returns (), pruned name r st).
Proof.
  intros H Hno. unfold off, mbind, M_bind, registry_get, read_array.
  rewrite H, (find_none _ _ Hno). simpl.
  unfold pruned. destruct (array st r); [apply registry_delete_eq | done].
Qed.

(** [off] removes the first match and nothing else. *)
Lemma off_removes st name h c r l1 s l2 :
  reg_get st name = Arr r →
  array st r = l1 ++ s :: l2 →
  Forall (λ x, matchesSubscription h (default_null c) x = inr false) l1 →
  matchesSubscription h (default_null c) s = inr true →
  off name h c st = (Returns (), pruned name r (set_heap <[r := l1 ++ l2]> st)).
Proof.
  intros H Harr Hl1 Hs. unfold off, mbind, M_bind, registry_get, read_array.
  rewrite H, Harr, (find_app_found _ _ _ _ Hl1 Hs). simpl.
  rewrite (indexOf_found _ _ _ _ Hl1 Hs).
  unfold splice, mbind, M_bind, read_array, write_array.
  rewrite Harr, delete_middle, array_set_heap_eq.
  unfold pruned. rewrite array_set_heap_eq.
  destruct (l1 ++ l2); [apply registry_delete_eq | done].
Qed.

(** [off] under a name that reads as a falsy value works on [[]]. *)
Lemma off_falsy st name h c :
  reg_get st name = Falsy → off name h c st = (Returns (), deleted name st).
Proof.
  intros H. unfold off, mbind, M_bind, registry_get. rewrite H.
  apply registry_delete_eq.
Qed.

(** [off] under a name that reads as anything else calls [find] on a
    value that has none. *)
Lemma off_other st name h c :
  reg_get st name = Other → off name h c st = (Throws TypeError, st).
Proof. intros H. unfold off, mbind, M_bind, registry_get. now rewrite H. Qed.

(** ** Dispatch *)

Section Dispatch.

Context (body : nat → list stmt).

Lemma dispatched_app args l1 l2 :
  dispatched args (l1 ++ l2) = dispatched args l1 ++ dispatched args l2.
Proof. apply flat_map_app. Qed.

Lemma call_function fuel f this args st :
  body f = [] →
  call body (S fuel) (VFunction f) this args st =
    (Returns (), set_log (log st ++ [Invocation f this args]) st).
Proof. intros Hb. simpl. unfold mbind, M_bind, record. now rewrite Hb. Qed.

Lemma call_spy fuel s args st :
  spy body s →
  call body (S fuel) (handler s) (context s) args st =
    (Returns (), set_log (log st ++ dispatched args [s]) st).
Proof.
  intros (f & Hf & Hb). rewrite Hf, (call_function _ _ _ _ _ Hb).
  unfold dispatched. simpl. now rewrite Hf.
Qed.

Lemma emit_at fuel name args st r :
  reg_get st name = Arr r →
  emit body fuel name args st =
    forEach_loop r (dispatch body fuel args) (length (array st r)) 0 st.
Proof.
  intros H. unfold emit, emit_with, mbind, M_bind, registry_get. now rewrite H.
Qed.

Lemma emit_falsy fuel name args st :
  reg_get st name = Falsy → emit body fuel name args st = (Returns (), st).
Proof.
  intros H. unfold emit, emit_with, mbind, M_bind, registry_get. now rewrite H.
Qed.

Lemma emit_other fuel name args st :
  reg_get st name = Other → emit body fuel name args st = (Throws TypeError, st).
Proof.
  intros H. unfold emit, emit_with, mbind, M_bind, registry_get. now rewrite H.
Qed.

Lemma forEach_loop_step r cb n k st s :
  array st r !! k = Some s →
  forEach_loop r cb (S n) k st =
    match cb s st with
    | (Returns _, st') => forEach_loop r cb n (S k) st'
    | (Throws e, st') => (Throws e, st')
    | (Exhausted, st') => (Exhausted, st')
    end.
Proof.
  intros H. simpl. unfold mbind, M_bind, read_array. rewrite H.
  now destruct (cb s st) as [[[] | e |] st'].
Qed.

Lemma forEach_loop_gap r cb n k st :
  array st r !! k = None →
  forEach_loop r cb (S n) k st = forEach_loop r cb n (S k) st.
Proof. intros H. simpl. unfold mbind, M_bind, read_array. now rewrite H. Qed.

(** Past the end of the array nothing is called. *)
Lemma forEach_loop_past r cb n k st :
  (length (array st r) ≤ k)%nat → forEach_loop r cb n k st = (Returns (), st).
Proof.
  revert k. induction n as [| n IH]; intros k Hk; [done |].
  rewrite forEach_loop_gap by (apply lookup_ge_None; lia).
  apply IH. lia.
Qed.

(** A stretch of the loop over spies: each is called once, in order, and
    the loop goes on after them. *)
Lemma forEach_loop_spies r fuel args n m k st :
  Forall (spy body) (take n (drop k (array st r))) →
  forEach_loop r (dispatch body (S fuel) args) (n + m) k st =
    forEach_loop r (dispatch body (S fuel) args) m (k + n)
      (set_log (log st ++ dispatched args (take n (drop k (array st r)))) st).
Proof.
  revert k st. induction n as [| n IH]; intros k st Hspies.
  - simpl. rewrite Nat.add_0_r, app_nil_r. now destruct st.
  - destruct (array st r !! k) as [s |] eqn:Hk.
    + rewrite (drop_S _ _ _ Hk) in Hspies |- *.
      rewrite firstn_cons in Hspies |- *.
      apply Forall_cons in Hspies as [Hs Hrest].
      change (S n + m) with (S (n + m)).
      rewrite (forEach_loop_step _ _ _ _ _ _ Hk). unfold dispatch at 1.
      rewrite (call_spy _ _ _ _ Hs).
      rewrite IH by (rewrite array_set_log; exact Hrest).
      rewrite array_set_log.
      replace (k + S n) with (S k + n) by lia.
      change (s :: take n (drop (S k) (array st r)))
        with ([s] ++ take n (drop (S k) (array st r))).
      rewrite dispatched_app, app_assoc. reflexivity.
    + assert (Hlen : (length (array st r) ≤ k)%nat) by now apply lookup_ge_None.
      rewrite !forEach_loop_past by (try rewrite array_set_log; lia).
      rewrite drop_ge by lia. rewrite take_nil. simpl.
      rewrite app_nil_r. now destruct st.
Qed.

(** [emit] over spies only. *)
Lemma emit_spies fuel name args st r :
  reg_get st name = Arr r → Forall (spy body) (array st r) →
  emit body (S fuel) name args st =
    (Returns (), set_log (log st ++ dispatched args (array st r)) st).
Proof.
  intros H Hspies. rewrite (emit_at _ _ _ _ _ H).
  pose proof (forEach_loop_spies r fuel args (length (array st r)) 0 0 st) as Hl.
  rewrite Nat.add_0_r, drop_0, firstn_all in Hl. now rewrite (Hl Hspies).
Qed.

(** *** The closure made by [once] *)

(** A plain function subscription is matched neither by a closure of
    [once] nor through the tag, which it does not carry. *)
Lemma spies_unmatched w name h c c' l :
  Forall (spy body) l → unmatched (VOnceHandler w name h c) c' l.
Proof.
  intros Hl. eapply Forall_impl; [exact Hl |].
  intros s (f & Hf & _). unfold matchesSubscription. rewrite Hf. reflexivity.
Qed.

(** The subscription stored by [once] matches its own closure. *)
Lemma once_matches_itself w name h c :
  matchesSubscription (VOnceHandler w name h c) (default_null (default_null c))
    (stored (VOnceHandler w name h c) c) = inr true.
Proof.
  unfold matchesSubscription, stored. simpl.
  now rewrite Nat.eqb_refl, default_null_idemp, loose_eq_refl.
Qed.

(** It also matches the handler it wraps. *)
Lemma once_matches_original w name h c :
  matchesSubscription h (default_null c) (stored (VOnceHandler w name h c) c)
    = inr true.
Proof.
  unfold matchesSubscription, stored. cbn [handler context original].
  destruct (loose_eq (VOnceHandler w name h c) h);
    now rewrite !loose_eq_refl.
Qed.

(** [off()] inside the closure: with nothing but spies in front of it,
    the closure's own subscription is the one removed. *)
Lemma self_removal st name r pre w h c rest :
  reg_get st name = Arr r →
  array st r = pre ++ stored (VOnceHandler w name h c) c :: rest →
  Forall (spy body) pre →
  invoke (Token name (VOnceHandler w name h c) (default_null c)) st =
    (Returns (), pruned name r (set_heap <[r := pre ++ rest]> st)).
Proof.
  intros H Harr Hpre. unfold invoke. simpl.
  apply (off_removes _ _ _ _ _ _ _ _ H Harr).
  - now apply spies_unmatched.
  - apply once_matches_itself.
Qed.

Lemma set_log_pruned L L' name r f st :
  set_log L' (pruned name r (set_heap f (set_log L st))) =
  set_log L' (pruned name r (set_heap f st)).
Proof.
  unfold pruned, array. simpl. destruct (default [] (f (heap st) !! r)); [| done].
  unfold deleted, registry_delete. now destruct (String.eqb name "__proto__").
Qed.

(** [emit] reaching a subscription of [once] behind spies: the spies are
    called, the closure removes its subscription, then the wrapped
    handler is called with the context given to [once], and the loop
    resumes one index further in the array that has just lost an element. *)
Lemma emit_once_slot fuel name args st r pre w h c rest :
  reg_get st name = Arr r →
  array st r = pre ++ stored (VOnceHandler w name h c) c :: rest →
  Forall (spy body) pre →
  emit body (S fuel) name args st =
    (call body fuel h c args;;
     forEach_loop r (dispatch body (S fuel) args) (length rest) (S (length pre)))
      (pruned name r
         (set_heap <[r := pre ++ rest]>
            (set_log (log st ++ dispatched args pre) st))).
Proof.
  intros H Harr Hpre. rewrite (emit_at _ _ _ _ _ H), Harr.
  rewrite length_app. simpl length.
  pose proof (forEach_loop_spies r fuel args (length pre) (S (length rest)) 0 st) as Hl.
  rewrite drop_0, Harr, take_app_length in Hl. rewrite (Hl Hpre). clear Hl.
  simpl (0 + _).
  set (st1 := set_log _ st).
  assert (Harr1 : array st1 r = pre ++ stored (VOnceHandler w name h c) c :: rest)
    by exact Harr.
  assert (Hk : array st1 r !! length pre = Some (stored (VOnceHandler w name h c) c)).
  { rewrite Harr1. now rewrite list_lookup_middle. }
  rewrite (forEach_loop_step _ _ _ _ _ _ Hk).
  unfold dispatch at 1. simpl handler. simpl context.
  change (call body (S fuel) (VOnceHandler w name h c) (default_null c) args)
    with (invoke (Token name (VOnceHandler w name h c) (default_null c));;
          call body fuel h c args).
  unfold mbind, M_bind.
  rewrite (self_removal st1 name r pre w h c rest H Harr1 Hpre).
  now destruct (call body fuel h c args _) as [[[] | e |] st'].
Qed.

(** The same when the wrapped handler and the subscriptions further on
    are spies: the subscription right behind the closure is passed over. *)
Lemma emit_once_spies fuel name args st r pre w f c rest :
  reg_get st name = Arr r →
  array st r = pre ++ stored (VOnceHandler w name (VFunction f) c) c :: rest →
  Forall (spy body) pre → body f = [] → Forall (spy body) (tail rest) →
  emit body (S (S fuel)) name args st =
    (Returns (),
     set_log (log st ++ dispatched args pre ++ [Invocation f c args]
                     ++ dispatched args (tail rest))
       (pruned name r (set_heap <[r := pre ++ rest]> st))).
Proof.
  intros H Harr Hpre Hf Hrest.
  rewrite (emit_once_slot _ _ _ _ _ _ _ _ _ _ H Harr Hpre).
  unfold mbind, M_bind. rewrite (call_function _ _ _ _ _ Hf).
  set (st2 := set_log _ _).
  assert (Harr2 : array st2 r = pre ++ rest).
  { unfold st2. rewrite array_set_log, array_pruned. apply array_set_heap_eq. }
  pose proof (forEach_loop_spies r (S fuel) args (length rest) 0 (S (length pre)) st2) as Hl.
  assert (Hdrop : take (length rest) (drop (S (length pre)) (pre ++ rest)) = tail rest).
  { replace (S (length pre)) with (length pre + 1) by lia.
    rewrite drop_app_add. destruct rest; [done |]. simpl.
    rewrite drop_0. apply take_ge. lia. }
  rewrite Harr2, Hdrop, Nat.add_0_r in Hl. rewrite (Hl Hrest). simpl.
  f_equal. unfold st2. rewrite log_pruned. simpl.
  rewrite <- !app_assoc.
  rewrite <- (set_log_pruned (log st ++ dispatched args pre) _ name r _ st).
  reflexivity.
Qed.

End Dispatch.

(** ** The registry invariant *)

Lemma wf_new_emitter : wf new_emitter.
Proof. split; simpl; intros; try done; by rewrite ?lookup_empty in *. Qed.

Lemma preserves_ret {A : Type} (a : A) : preserves (mret a).
Proof. intros st H. exact H. Qed.

Lemma preserves_throw {A : Type} e : preserves (throw e : M A).
Proof. intros st H. exact H. Qed.

Lemma preserves_exhausted {A : Type} : preserves (exhausted : M A).
Proof. intros st H. exact H. Qed.

Lemma preserves_bind {A B : Type} (m : M A) (k : A → M B) :
  preserves m → (∀ a, preserves (k a)) → preserves (m ≫= k).
Proof.
  intros Hm Hk st H. unfold mbind, M_bind. specialize (Hm st H).
  destruct (m st) as [[a | e |] st']; simpl in *; [now apply Hk | done | done].
Qed.

Lemma wf_set_log l st : wf st → wf (set_log l st).
Proof. intros []. now split. Qed.

Lemma wf_set_next n st : next st ≤ n → wf st → wf (set_next n st).
Proof.
  intros Hn []. split; simpl; try done.
  - intros name r Hr. specialize (wf_allocated0 _ _ Hr). lia.
  - intros r Hr. specialize (wf_proto_allocated0 _ Hr). lia.
Qed.

Lemma wf_deleted name st : wf st → wf (deleted name st).
Proof.
  intros []. unfold deleted, registry_delete.
  destruct (String.eqb_spec name "__proto__") as [-> | Hne]; [now split |].
  split; simpl.
  - intros n r [_ Hr]%lookup_delete_Some. eauto.
  - intros n r [_ Hr]%lookup_delete_Some. eauto.
  - done.
  - intros n1 n2 r [_ H1]%lookup_delete_Some [_ H2]%lookup_delete_Some. eauto.
  - intros n r [_ Hr]%lookup_delete_Some. eauto.
  - apply lookup_delete_None. auto.
Qed.

(** Shrinking or growing the array held under [name], then pruning. *)
Lemma wf_pruned_update name r l st :
  wf st → reg_get st name = Arr r →
  wf (pruned name r (set_heap <[r := l]> st)).
Proof.
  intros Hwf Hget.
  assert (Hothers : ∀ n r', n ≠ name → own st !! n = Some r' → r' ≠ r).
  { intros n r' Hn Hr' ->. apply reg_get_Arr in Hget as [[_ Hp] | [_ Ho]].
    - now apply (wf_proto_distinct _ Hwf _ _ Hr').
    - apply Hn. exact (wf_distinct _ Hwf _ _ _ Hr' Ho). }
  assert (Hbase : ∀ own', (∀ n r', own' !! n = Some r' → own st !! n = Some r') →
            (∀ r', own' !! name = Some r' → l ≠ []) →
            wf {| own := own'; proto := proto st; heap := <[r := l]> (heap st);
                  next := next st; log := log st |}).
  { intros own' Hsub Hname. destruct Hwf. split; simpl; eauto.
    - intros n r' Hr'. unfold array. simpl.
      destruct (decide (n = name)) as [-> | Hn].
      + apply Hsub in Hr' as Hr''.
        apply reg_get_Arr in Hget as [[-> _] | [_ Ho]]; [congruence |].
        assert (r' = r) as -> by congruence.
        rewrite lookup_insert_eq. simpl. eauto.
      + rewrite lookup_insert_ne by (intros <-; eapply Hothers; eauto).
        eapply wf_nonempty0; eauto.
    - destruct (own' !! "__proto__") eqn:E; [| done].
      apply Hsub in E. congruence. }
  unfold pruned. rewrite array_set_heap_eq. destruct l as [| s l].
  - unfold deleted, registry_delete.
    destruct (String.eqb_spec name "__proto__") as [-> | Hne]; simpl.
    + apply (Hbase (own st)); [auto |].
      intros r'. rewrite (wf_proto_key _ Hwf). discriminate.
    + apply (Hbase (delete name (own st))).
      * intros n r' [_ Hr']%lookup_delete_Some. done.
      * intros r'. rewrite lookup_delete_eq. discriminate.
  - apply (Hbase (own st)); auto.
Qed.

Lemma wf_pruned name r st : wf st → wf (pruned name r st).
Proof.
  intros H. unfold pruned. destruct (array st r); [now apply wf_deleted | done].
Qed.

Lemma wf_on_new st name h c :
  wf st → (∀ r, reg_get st name ≠ Arr r) →
  wf (set_heap <[next st := [stored h c]]>
        (assigned name (next st) (set_next (S (next st)) st))).
Proof.
  intros [] Hget. unfold assigned, registry_set.
  destruct (String.eqb_spec name "__proto__") as [-> | Hne]; split; simpl.
  - intros n r Hr. unfold array. simpl.
    rewrite lookup_insert_ne by (intros <-; specialize (wf_allocated0 _ _ Hr); lia).
    eapply wf_nonempty0; eauto.
  - intros n r Hr. specialize (wf_allocated0 _ _ Hr). lia.
  - intros r [= <-]. lia.
  - done.
  - intros n r Hr [= <-]. specialize (wf_allocated0 _ _ Hr). lia.
  - done.
  - intros n r Hr. unfold array. simpl.
    apply lookup_insert_Some in Hr as [[<- <-] | [Hn Hr]].
    + now rewrite lookup_insert_eq.
    + rewrite lookup_insert_ne by (intros <-; specialize (wf_allocated0 _ _ Hr); lia).
      eapply wf_nonempty0; eauto.
  - intros n r [[<- <-] | [Hn Hr]]%lookup_insert_Some; [lia |].
    specialize (wf_allocated0 _ _ Hr). lia.
  - intros r Hr. specialize (wf_proto_allocated0 _ Hr). lia.
  - intros n1 n2 r [[<- <-] | [Hn1 H1]]%lookup_insert_Some
                   [[<- Heq] | [Hn2 H2]]%lookup_insert_Some; try done.
    + specialize (wf_allocated0 _ _ H2). lia.
    + subst r. specialize (wf_allocated0 _ _ H1). lia.
    + eauto.
  - intros n r [[<- <-] | [Hn Hr]]%lookup_insert_Some Hp.
    + specialize (wf_proto_allocated0 _ Hp). lia.
    + eapply wf_proto_distinct0; eauto.
  - now rewrite lookup_insert_ne.
Qed.

Lemma preserves_on name h c : preserves (on name h c).
Proof.
  intros st Hwf. destruct (reg_get st name) eqn:E.
  - rewrite (on_existing _ _ _ _ _ E). simpl.
    pose proof (wf_pruned_update name r (array st r ++ [stored h c]) st Hwf E) as H.
    unfold pruned in H. rewrite array_set_heap_eq in H.
    now destruct (array st r).
  - rewrite on_new by congruence. apply (wf_on_new st name h c Hwf). congruence.
  - rewrite on_new by congruence. apply (wf_on_new st name h c Hwf). congruence.
Qed.

Lemma preserves_off name h c : preserves (off name h c).
Proof.
  intros st Hwf. destruct (reg_get st name) eqn:E.
  - destruct (find (matchesSubscription h (default_null c)) (array st r))
      as [e | [s |]] eqn:Hfind.
    + unfold off, mbind, M_bind, registry_get, read_array.
      now rewrite E, Hfind.
    + destruct (find_found_inv _ _ _ Hfind) as (l1 & l2 & Harr & Hl1 & Hs).
      rewrite (off_removes _ _ _ _ _ _ _ _ E Harr Hl1 Hs).
      now apply wf_pruned_update.
    + rewrite (off_no_match _ _ _ _ _ E (find_none_inv _ _ Hfind)).
      now apply wf_pruned.
  - rewrite (off_falsy _ _ _ _ E). now apply wf_deleted.
  - now rewrite (off_other _ _ _ _ E).
Qed.

Lemma preserves_invoke t : preserves (invoke t).
Proof. apply preserves_off. Qed.

Lemma preserves_once name h c : preserves (once name h c).
Proof.
  apply preserves_bind; [| intros w; apply preserves_on].
  intros st Hwf. apply wf_set_next; [simpl; lia | done].
Qed.

Lemma preserves_forEach_loop r cb n k :
  (∀ s, preserves (cb s)) → preserves (forEach_loop r cb n k).
Proof.
  intros Hcb. revert k. induction n as [| n IH]; intros k; [apply preserves_ret |].
  simpl. apply preserves_bind; [intros st H; exact H | intros l].
  apply preserves_bind; [| intros _; apply IH].
  destruct (l !! k); [apply Hcb | apply preserves_ret].
Qed.

Lemma preserves_emit_with call name args :
  (∀ f this, preserves (call f this args)) → preserves (emit_with call name args).
Proof.
  intros Hcall. apply preserves_bind; [intros st H; exact H | intros v].
  destruct v; [| apply preserves_ret | apply preserves_throw].
  apply preserves_bind; [intros st H; exact H | intros l].
  apply preserves_forEach_loop. intros s. apply Hcall.
Qed.

Lemma preserves_exec emit s :
  (∀ name args, preserves (emit name args)) → preserves (exec emit s).
Proof.
  intros Hemit. destruct s; simpl.
  - apply preserves_bind; [apply preserves_on | intros; apply preserves_ret].
  - apply preserves_bind; [apply preserves_once | intros; apply preserves_ret].
  - apply preserves_off.
  - apply Hemit.
  - apply preserves_throw.
Qed.

Lemma preserves_run emit code :
  (∀ name args, preserves (emit name args)) → preserves (run emit code).
Proof.
  intros Hemit. induction code as [| s code IH]; [apply preserves_ret |].
  simpl. apply preserves_bind; [now apply preserves_exec | intros; apply IH].
Qed.

Section Invariant.

Context (body : nat → list stmt).

Lemma preserves_call fuel f this args : preserves (call body fuel f this args).
Proof.
  revert f this args. induction fuel as [| fuel IH]; intros f this args;
    [apply preserves_exhausted |].
  destruct f; simpl; try apply preserves_throw.
  - apply preserves_bind; [intros st H; now apply wf_set_log | intros _].
    apply preserves_run. intros name args'.
    apply preserves_emit_with. intros; apply IH.
  - apply preserves_bind; [apply preserves_invoke | intros _; apply IH].
Qed.

Lemma preserves_emit fuel name args : preserves (emit body fuel name args).
Proof. apply preserves_emit_with. intros. apply preserves_call. Qed.

Lemma reachable_wf st : reachable body st → wf st.
Proof.
  induction 1.
  - apply wf_new_emitter.
  - now apply preserves_on.
  - now apply preserves_once.
  - now apply preserves_off.
  - now apply preserves_emit.
Qed.

End Invariant.

(** ** What a name lists after each method *)

Lemma once_eq name h c st :
  once name h c st =
    on name (VOnceHandler (next st) name h c) c (set_next (S (next st)) st).
Proof. reflexivity. Qed.

Lemma once_pushes st name h c :
  ∃ r, reg_get (once name h c st).2 name = Arr r ∧
       array (once name h c st).2 r =
         subscriptions st name ++ [stored (VOnceHandler (next st) name h c) c] ∧
       log (once name h c st).2 = log st.
Proof.
  rewrite once_eq.
  destruct (on_pushes (set_next (S (next st)) st) name
              (VOnceHandler (next st) name h c) c) as (r & H1 & H2 & H3).
  exists r. now rewrite H1, H2, H3.
Qed.

Lemma subscriptions_at st name r : reg_get st name = Arr r → subscriptions st name = array st r.
Proof. intros H. unfold subscriptions. now rewrite H. Qed.

Lemma subscriptions_set_log l st name :
  subscriptions (set_log l st) name = subscriptions st name.
Proof. reflexivity. Qed.

Lemma subscriptions_on st name h c :
  subscriptions (on name h c st).2 name = subscriptions st name ++ [stored h c].
Proof.
  destruct (on_pushes st name h c) as (r & H1 & H2 & _).
  now rewrite (subscriptions_at _ _ _ H1).
Qed.


(** [on] copes with a name that the registry inherits: the array it
    assigns becomes an own property that hides the inherited one. *)
Lemma on_over_inherited_name st name h c :
  reg_get st name = Other →
  ∃ st', on name h c st = (Returns (Token name h (default_null c)), st') ∧
         subscriptions st' name = [stored h c].
Proof.
  intros H. destruct (on_returns st name h c) as [st' Hst']. exists st'.
  split; [exact Hst' |].
  pose proof (subscriptions_on st name h c) as Hs. rewrite Hst' in Hs.
  simpl in Hs. rewrite Hs. unfold subscriptions. now rewrite H.
Qed.

(** [once] returns as well. *)
Lemma once_returns st name h c :
  ∃ st', once name h c st =
           (Returns (Token name (VOnceHandler (next st) name h c) (default_null c)), st').
Proof. rewrite once_eq. apply on_returns. Qed.

(** After [off] took a subscription out of the array under [name], the
    name lists what is left, whether or not the property was deleted. *)
Lemma subscriptions_pruned name r l st :
  reg_get st name = Arr r →
  subscriptions (pruned name r (set_heap <[r := l]> st)) name = l.
Proof.
  intros H. unfold pruned. rewrite array_set_heap_eq.
  pose proof (reg_get_set_heap_Arr <[r := l]> _ _ _ H) as H'.
  destruct l as [| s l].
  - unfold deleted, registry_delete.
    destruct (String.eqb_spec name "__proto__") as [-> | Hne]; simpl.
    + rewrite (subscriptions_at _ _ _ H'). apply array_set_heap_eq.
    + unfold subscriptions.
      destruct (reg_get (set_own (delete name) (set_heap <[r := []]> st)) name)
        as [r' | |] eqn:E; try done.
      exfalso. eapply reg_get_absent; [exact Hne | | exact E].
      simpl. apply lookup_delete_eq.
  - rewrite (subscriptions_at _ _ _ H'). apply array_set_heap_eq.
Qed.

Section Emits.

Context (body : nat → list stmt).

(** [emit] over spies, whatever the name reads as. *)
Lemma emit_spies_state fuel name args st :
  Forall (spy body) (subscriptions st name) →
  (emit body (S fuel) name args st).2 =
    set_log (log st ++ dispatched args (subscriptions st name)) st.
Proof.
  unfold subscriptions. intros Hspies. destruct (reg_get st name) eqn:E.
  - now rewrite (emit_spies _ _ _ _ _ _ E Hspies).
  - rewrite (emit_falsy _ _ _ _ _ E). simpl. rewrite app_nil_r. now destruct st.
  - rewrite (emit_other _ _ _ _ _ E). simpl. rewrite app_nil_r. now destruct st.
Qed.

Lemma emits_spies fuel name argss st :
  Forall (spy body) (subscriptions st name) →
  emits body (S fuel) name argss st =
    set_log (log st ++ flat_map (λ args, dispatched args (subscriptions st name)) argss) st.
Proof.
  revert st. induction argss as [| args argss IH]; intros st Hspies; simpl.
  - rewrite app_nil_r. now destruct st.
  - rewrite (emit_spies_state _ _ _ _ Hspies).
    rewrite IH by now rewrite subscriptions_set_log.
    rewrite subscriptions_set_log. simpl. now rewrite <- app_assoc.
Qed.

End Emits.

(** ** What [off] leaves alone *)

Lemma deleted_absent name st : own st !! name = None → deleted name st = st.
Proof.
  intros H. unfold deleted, registry_delete.
  destruct (String.eqb name "__proto__"); [done |]. simpl.
  unfold set_own. rewrite delete_id by done. now destruct st.
Qed.

Lemma inherited_frame st st' name :
  proto st' = proto st →
  (∀ r0, proto st = Some r0 → array st' r0 = array st r0) →
  inherited st' name = inherited st name.
Proof.
  intros Hp Harr. unfold inherited. rewrite Hp.
  destruct (proto st) as [r0 |]; [| done]. now rewrite (Harr r0).
Qed.

Lemma reg_get_no_own st name :
  name ≠ "__proto__" → own st !! name = None → reg_get st name = inherited st name.
Proof.
  intros Hne Hown. unfold reg_get. rewrite Hown.
  now destruct (String.eqb_spec name "__proto__").
Qed.

Lemma subscriptions_deleted_ne name name' st :
  name' ≠ name → subscriptions (deleted name st) name' = subscriptions st name'.
Proof.
  intros Hne. unfold deleted, registry_delete.
  destruct (String.eqb name "__proto__"); [done |]. simpl.
  unfold subscriptions, reg_get. simpl. now rewrite lookup_delete_ne.
Qed.

Lemma subscriptions_deleted name st :
  subscriptions (deleted name st) name =
    match reg_get (deleted name st) name with Arr _ => subscriptions st name | _ => [] end.
Proof.
  unfold subscriptions at 1.
  destruct (reg_get (deleted name st) name) as [r | |] eqn:E; try done.
  rewrite array_deleted.
  assert (reg_get st name = Arr r) as Hr; [| unfold subscriptions; now rewrite Hr].
  apply reg_get_Arr. apply reg_get_Arr in E as [[-> Hp] | [Hne Ho]].
  - left. split; [done |]. revert Hp. unfold deleted, registry_delete. now simpl.
  - right. split; [done |]. revert Ho. unfold deleted, registry_delete.
    destruct (String.eqb name "__proto__"); [done |]. simpl.
    now intros [_ ?]%lookup_delete_Some.
Qed.

(** Writing to the array held under [name] changes what no other name
    lists. *)
Lemma subscriptions_set_heap_ne st name r l name' :
  wf st → reg_get st name = Arr r → name' ≠ name →
  subscriptions (set_heap <[r := l]> st) name' = subscriptions st name'.
Proof.
  intros Hwf Hget Hne. unfold subscriptions.
  destruct (reg_get st name') as [r' | |] eqn:E.
  - rewrite (reg_get_set_heap_Arr _ _ _ _ E). apply array_set_heap_ne.
    intros <-. apply reg_get_Arr in Hget, E.
    destruct Hget as [[-> Hp] | [Hn Ho]], E as [[-> Hp'] | [Hn' Ho']].
    + done.
    + now apply (wf_proto_distinct _ Hwf _ _ Ho').
    + now apply (wf_proto_distinct _ Hwf _ _ Ho).
    + apply Hne. exact (wf_distinct _ Hwf _ _ _ Ho' Ho).
  - destruct (reg_get (set_heap <[r := l]> st) name') as [r' | |] eqn:E'; try done.
    apply reg_get_Arr in E'. simpl in E'. apply reg_get_Arr in E'. congruence.
  - destruct (reg_get (set_heap <[r := l]> st) name') as [r' | |] eqn:E'; try done.
    apply reg_get_Arr in E'. simpl in E'. apply reg_get_Arr in E'. congruence.
Qed.

Lemma subscriptions_pruned_ne name name' r st :
  name' ≠ name → subscriptions (pruned name r st) name' = subscriptions st name'.
Proof.
  intros Hne. unfold pruned.
  destruct (array st r); [now apply subscriptions_deleted_ne | done].
Qed.

(** [off(name, ...)] changes what no other name lists. *)
Lemma off_other_names st name h c name' :
  wf st → name' ≠ name →
  subscriptions (off name h c st).2 name' = subscriptions st name'.
Proof.
  intros Hwf Hne. destruct (reg_get st name) eqn:E.
  - destruct (find (matchesSubscription h (default_null c)) (array st r))
      as [e | [s |]] eqn:Hfind.
    + unfold off, mbind, M_bind, registry_get, read_array.
      now rewrite E, Hfind.
    + destruct (find_found_inv _ _ _ Hfind) as (l1 & l2 & Harr & Hl1 & Hs).
      rewrite (off_removes _ _ _ _ _ _ _ _ E Harr Hl1 Hs). simpl.
      rewrite subscriptions_pruned_ne by done.
      now apply (subscriptions_set_heap_ne _ name).
    + rewrite (off_no_match _ _ _ _ _ E (find_none_inv _ _ Hfind)).
      now apply subscriptions_pruned_ne.
  - rewrite (off_falsy _ _ _ _ E). now apply subscriptions_deleted_ne.
  - now rewrite (off_other _ _ _ _ E).
Qed.

(** Under its own name [off] takes out the first match, or nothing. *)
Lemma off_removes_only_match st name h c :
  subscriptions (off name h c st).2 name = subscriptions st name ∨
  ∃ l1 s l2,
    subscriptions st name = l1 ++ s :: l2 ∧ unmatched h c l1 ∧
    matchesSubscription h (default_null c) s = inr true ∧
    subscriptions (off name h c st).2 name = l1 ++ l2.
Proof.
  destruct (reg_get st name) eqn:E.
  - destruct (find (matchesSubscription h (default_null c)) (array st r))
      as [e | [s |]] eqn:Hfind.
    + left. unfold off, mbind, M_bind, registry_get, read_array.
      now rewrite E, Hfind.
    + right. destruct (find_found_inv _ _ _ Hfind) as (l1 & l2 & Harr & Hl1 & Hs).
      exists l1, s, l2. rewrite (subscriptions_at _ _ _ E).
      rewrite (off_removes _ _ _ _ _ _ _ _ E Harr Hl1 Hs).
      repeat split; try done. now apply subscriptions_pruned.
    + left. rewrite (off_no_match _ _ _ _ _ E (find_none_inv _ _ Hfind)). simpl.
      unfold pruned. destruct (array st r) eqn:Harr; [| done].
      rewrite subscriptions_deleted, (subscriptions_at _ _ _ E), Harr.
      now destruct (reg_get (deleted name st) name).
  - left. rewrite (off_falsy _ _ _ _ E). simpl.
    rewrite subscriptions_deleted. unfold subscriptions. rewrite E.
    now destruct (reg_get (deleted name st) name).
  - left. now rewrite (off_other _ _ _ _ E).
Qed.

(** Once [off] has taken a subscription out and nothing that is left
    matches, the same call again changes nothing. *)
Lemma off_again st name h c r l :
  reg_get st name = Arr r → unmatched h c l →
  (l = [] → name ≠ "__proto__" → inherited (set_heap <[r := l]> st) name = Falsy) →
  off name h c (pruned name r (set_heap <[r := l]> st)) =
    (Returns (), pruned name r (set_heap <[r := l]> st)).
Proof.
  intros Hget Hno Hinh.
  pose proof (reg_get_set_heap_Arr <[r := l]> _ _ _ Hget) as Hget'.
  assert (Hno' : Forall (λ x, matchesSubscription h (default_null c) x = inr false)
                   (array (set_heap <[r := l]> st) r))
    by now rewrite array_set_heap_eq.
  destruct l as [| s l].
  - unfold pruned at 1 2. rewrite array_set_heap_eq.
    destruct (String.eqb_spec name "__proto__") as [-> | Hne].
    + change (deleted "__proto__" (set_heap <[r := []]> st))
        with (set_heap <[r := []]> st).
      rewrite (off_no_match _ _ _ _ _ Hget' Hno').
      unfold pruned. now rewrite array_set_heap_eq.
    + set (st2 := deleted name (set_heap <[r := []]> st)).
      assert (Hown : own st2 !! name = None).
      { unfold st2, deleted, registry_delete.
        destruct (String.eqb_spec name "__proto__"); [done |]. simpl.
        apply lookup_delete_eq. }
      assert (Hfalsy : reg_get st2 name = Falsy).
      { rewrite (reg_get_no_own _ _ Hne Hown), <- (Hinh eq_refl Hne).
        apply inherited_frame; unfold st2, deleted, registry_delete;
          now destruct (String.eqb name "__proto__"). }
      rewrite (off_falsy _ _ _ _ Hfalsy). f_equal. now apply deleted_absent.
  - rewrite pruned_nonempty by now rewrite array_set_heap_eq.
    rewrite (off_no_match _ _ _ _ _ Hget' Hno').
    now rewrite pruned_nonempty by now rewrite array_set_heap_eq.
Qed.

(** [on] under a name other than [__proto__] leaves the prototype of
    the registry as it is. *)
Lemma on_frame st name h c :
  wf st → name ≠ "__proto__" →
  proto (on name h c st).2 = proto st ∧
  ∀ r0, proto st = Some r0 → array (on name h c st).2 r0 = array st r0.
Proof.
  intros Hwf Hne. destruct (reg_get st name) as [r | |] eqn:E.
  - rewrite (on_existing _ _ _ _ _ E). simpl. split; [done |].
    intros r0 Hp. apply array_set_heap_ne. intros ->.
    apply reg_get_Arr in E as [[? _] | [_ Ho]]; [done |].
    now apply (wf_proto_distinct _ Hwf _ _ Ho).
  - rewrite on_new by congruence. simpl. unfold assigned, registry_set.
    destruct (String.eqb_spec name "__proto__"); [done |]. simpl.
    split; [done |]. intros r0 Hp. pose proof (wf_proto_allocated _ Hwf _ Hp).
    unfold array. simpl. rewrite lookup_insert_ne by lia. done.
  - rewrite on_new by congruence. simpl. unfold assigned, registry_set.
    destruct (String.eqb_spec name "__proto__"); [done |]. simpl.
    split; [done |]. intros r0 Hp. pose proof (wf_proto_allocated _ Hwf _ Hp).
    unfold array. simpl. rewrite lookup_insert_ne by lia. done.
Qed.

(** The function returned by [on], called twice in a row. *)
Lemma on_token_twice st name h c :
  wf st → reg_get st name ≠ Other →
  unmatched h (default_null c) (subscriptions st name) →
  ∃ st2,
    invoke (Token name h (default_null c)) (on name h c st).2 = (Returns (), st2) ∧
    subscriptions st2 name = subscriptions st name ∧
    invoke (Token name h (default_null c)) st2 = (Returns (), st2).
Proof.
  intros Hwf Hother Hno.
  destruct (on_pushes st name h c) as (r & Hget & Harr & _).
  set (st1 := (on name h c st).2) in *.
  assert (Hself : matchesSubscription h (default_null (default_null c)) (stored h c)
                  = inr true).
  { unfold matchesSubscription, stored. simpl.
    now rewrite !loose_eq_refl, default_null_idemp, loose_eq_refl. }
  exists (pruned name r (set_heap <[r := subscriptions st name ++ []]> st1)).
  unfold invoke. simpl bound_name. simpl bound_handler. simpl bound_context.
  split; [| split].
  - exact (off_removes _ _ _ _ _ _ _ _ Hget Harr Hno Hself).
  - rewrite subscriptions_pruned by exact Hget. apply app_nil_r.
  - apply off_again; [exact Hget | now rewrite app_nil_r |].
    rewrite app_nil_r. intros Hnil Hne.
    destruct (reg_get st name) as [r0 | |] eqn:E; [| | done].
    + exfalso. apply reg_get_Arr in E as [[? _] | [_ Ho]]; [done |].
      apply (wf_nonempty _ Hwf _ _ Ho). unfold subscriptions in Hnil.
      assert (reg_get st name = Arr r0) as Hr0 by (apply reg_get_Arr; auto).
      now rewrite Hr0 in Hnil.
    + assert (Hown : own st !! name = None).
      { destruct (own st !! name) as [r0 |] eqn:Ho; [| done].
        assert (reg_get st name = Arr r0) by (apply reg_get_Arr; auto). congruence. }
      rewrite (reg_get_no_own _ _ Hne Hown) in E. rewrite <- E.
      destruct (on_frame st name h c Hwf Hne) as [Hproto Harrs].
      fold st1 in Hproto, Harrs.
      apply inherited_frame; [exact Hproto |].
      intros r0 Hp. rewrite array_set_heap_ne; [now apply Harrs |].
      intros ->. apply reg_get_Arr in Hget as [[? _] | [_ Ho]]; [done |].
      apply (wf_proto_distinct _ (preserves_on name h c st Hwf) _ _ Ho).
      fold st1. now rewrite Hproto.
Qed.

(** ** Auxiliary facts *)

(** A name that lists something holds an array. *)
Lemma subscriptions_cons_inv st name l1 x l2 :
  subscriptions st name = l1 ++ x :: l2 →
  ∃ r, reg_get st name = Arr r ∧ array st r = l1 ++ x :: l2.
Proof.
  unfold subscriptions. destruct (reg_get st name) as [r | |]; intros H.
  - eauto.
  - now destruct l1.
  - now destruct l1.
Qed.

(** The calls that dispatching plain subscriptions records are calls of
    their handlers and of no other function. *)
Lemma invocations_of_dispatched f args l :
  Forall (λ s, handler s ≠ VFunction f) l →
  invocations_of f (dispatched args l) = 0.
Proof.
  unfold invocations_of. induction 1 as [| s l Hs _ IH]; [done |].
  change (s :: l) with ([s] ++ l).
  rewrite dispatched_app, filter_app, length_app, IH, Nat.add_0_r.
  unfold dispatched. simpl. destruct (handler s) as [| | o | g | ]; try done.
  simpl. rewrite filter_cons_False; [done |]. simpl. congruence.
Qed.

Lemma invocations_of_app f l1 l2 :
  invocations_of f (l1 ++ l2) = invocations_of f l1 + invocations_of f l2.
Proof. unfold invocations_of. now rewrite filter_app, length_app. Qed.

(** What [off(name, undefined)] matches. *)
Lemma matches_undefined s :
  matchesSubscription VUndefined VNull s =
    inr ((plain s || wraps_nullish s) && nullish (context s)).
Proof.
  unfold matchesSubscription, plain, wraps_nullish, nullish.
  destruct (handler s) as [| | o | f | w n h c]; reflexivity.
Qed.

(** A name of [Object.prototype] under which the registry has no own
    property reads as the inherited value. *)
Lemma reg_get_inherited st name :
  proto st = None → own st !! name = None →
  mem name object_prototype_keys = true →
  reg_get st name = Other.
Proof.
  intros Hp Ho Hm. unfold reg_get, inherited. rewrite Hp, Ho, Hm.
  now destruct (String.eqb name "__proto__").
Qed.

(** What [unmatched] amounts to: no subscription matches, and a stored
    [null] or [undefined] handler is met only when the handler looked for
    is one of the two, so that the tag is not read. *)
Lemma unmatched_iff h c l :
  unmatched h c l ↔
  Forall (λ s, matchesSubscription h (default_null c) s ≠ inr true ∧
               (nullish (handler s) = true → nullish h = true)) l.
Proof.
  unfold unmatched.
  split; intros H0; (eapply Forall_impl; [exact H0 |]); clear H0; intros [cs hs];
    unfold matchesSubscription, nullish; simpl.
  - intros H. split; [congruence |].
    destruct hs, h; simpl in *; congruence.
  - intros [Hno Hnull].
    destruct (loose_eq hs h) eqn:E.
    + simpl in *. destruct (loose_eq cs (default_null c)); congruence.
    + destruct hs; simpl in *;
        try (destruct h; simpl in *; discriminate (Hnull eq_refl) || discriminate E);
        match goal with
        | |- inr ?b = inr false => destruct b; congruence
        end.
Qed.

(** * The statements of the specification *)

Section Claims.

Context (body : nat → list stmt).

(** C1 (amended).  On an emitter whose subscriptions under [name] are
    plain ones whose handlers return without touching the emitter, after
    [on(name, handler, context)] a single [emit(name, ...args)] calls
    those earlier handlers in turn and then does exactly what one call
    [handler.call(context, ...args)] does, [context] being the stored
    context ([null] when none was given).  When [handler] is itself such
    a function, the emit returns having recorded, after the earlier
    calls, one call of [handler] with the stored context as receiver and
    the arguments of the emit. *)
Theorem on_then_emit_invokes_once st name h c args fuel :
  Forall (spy body) (subscriptions st name) →
  let st1 := (on name h c st).2 in
  emit body (S fuel) name args st1 =
    call body (S fuel) h (default_null c) args
      (set_log (log st ++ dispatched args (subscriptions st name)) st1)
  ∧ (∀ f, h = VFunction f → body f = [] →
       emit body (S fuel) name args st1 =
         (Returns (),
          set_log (log st ++ dispatched args (subscriptions st name)
                          ++ [Invocation f (default_null c) args]) st1)).
Proof.
  intros Hpre st1.
  destruct (on_pushes st name h c) as (r & Hget & Harr & Hlog).
  fold st1 in Hget, Harr, Hlog.
  assert (Heq : emit body (S fuel) name args st1 =
    call body (S fuel) h (default_null c) args
      (set_log (log st ++ dispatched args (subscriptions st name)) st1)).
  { rewrite (emit_at _ _ _ _ _ _ Hget), Harr, length_app. simpl length.
    pose proof (forEach_loop_spies body r fuel args
                  (length (subscriptions st name)) 1 0 st1) as Hl.
    rewrite drop_0, Harr, take_app_length, Hlog in Hl. rewrite (Hl Hpre).
    simpl (0 + _).
    set (st' := set_log _ st1).
    assert (Hk : array st' r !! length (subscriptions st name) = Some (stored h c)).
    { unfold st'. rewrite array_set_log, Harr. now apply list_lookup_middle. }
    rewrite (forEach_loop_step _ _ 0 _ _ _ Hk).
    unfold dispatch, stored. cbn [handler context].
    now destruct (call body (S fuel) h (default_null c) args st') as [[[] | e |] st'']. }
  split; [exact Heq |].
  intros f -> Hf. rewrite Heq, (call_function _ _ _ _ _ _ Hf). simpl.
  now rewrite <- app_assoc.
Qed.

(** C2 (amended).  On an emitter whose subscriptions under [name] are
    plain ones whose handlers return without touching the emitter, the
    first [emit] after [once(name, handler, context)] calls the earlier
    handlers and then does what [handler.call(context, ...args)] does in
    a state from which the closure's subscription is already gone: the
    closure removes itself first and calls the original handler second,
    with the context given to [once] and the arguments of the emit.
    When [handler] is such a function itself, it is called on that first
    emit and by none of the emits that follow, however many. *)
Theorem once_fires_on_first_emit_only st name h c args fuel :
  Forall (spy body) (subscriptions st name) →
  let st1 := (once name h c st).2 in
  (∃ st2,
      emit body (S fuel) name args st1 = call body fuel h c args st2 ∧
      subscriptions st2 name = subscriptions st name ∧
      log st2 = log st ++ dispatched args (subscriptions st name))
  ∧ (∀ f argss, h = VFunction f → body f = [] →
       log (emits body (S (S fuel)) name (args :: argss) st1) =
         log st ++ dispatched args (subscriptions st name)
                ++ [Invocation f c args]
                ++ flat_map (λ a, dispatched a (subscriptions st name)) argss).
Proof.
  intros Hpre st1.
  destruct (once_pushes st name h c) as (r & Hget & Harr & Hlog).
  fold st1 in Hget, Harr, Hlog.
  split.
  - exists (pruned name r
              (set_heap <[r := subscriptions st name ++ []]>
                 (set_log (log st1 ++ dispatched args (subscriptions st name)) st1))).
    split; [| split].
    + rewrite (emit_once_slot body fuel name args st1 r _ _ h c [] Hget Harr Hpre).
      unfold mbind, M_bind. simpl forEach_loop.
      now destruct (call body fuel h c args _) as [[[] | e |] st'].
    + rewrite app_nil_r. now apply subscriptions_pruned.
    + now rewrite log_pruned, <- Hlog.
  - intros f argss -> Hf. simpl emits.
    rewrite (emit_once_spies body fuel name args st1 r _ _ f c []
               Hget Harr Hpre Hf (Forall_nil_2 _)).
    simpl snd.
    match goal with |- log (emits _ _ _ _ ?s) = _ => set (st2 := s) end.
    assert (Hsubs : subscriptions st2 name = subscriptions st name).
    { unfold st2. rewrite subscriptions_set_log, subscriptions_pruned by exact Hget.
      apply app_nil_r. }
    rewrite emits_spies by (rewrite Hsubs; exact Hpre).
    rewrite Hsubs. unfold st2. cbn [log set_log tail dispatched flat_map].
    rewrite Hlog. now rewrite <- !app_assoc.
Qed.


(** C5 (amended).  On an emitter where the test of
    [off(name, handler, context)] returns [false] on every subscription
    held under [name] (none matches, and none makes the test throw, as a
    stored [null] or [undefined] handler does when [handler] is neither),
    that call made after [once(name, handler, context)] and before any
    emit removes the subscription that [once] registered, although it was
    given the original handler and not the closure: the name lists again
    what it listed before.  A later emit then calls the handlers that were there
    before and adds no call of [handler], when those are plain
    subscriptions of other functions that return without touching the
    emitter. *)
Theorem off_removes_once_by_original st name h c :
  unmatched h c (subscriptions st name) →
  let st1 := (once name h c st).2 in
  ∃ st2,
    off name h c st1 = (Returns (), st2) ∧
    subscriptions st2 name = subscriptions st name ∧
    log st2 = log st ∧
    (∀ f fuel args,
        h = VFunction f →
        Forall (spy body) (subscriptions st name) →
        Forall (λ s, handler s ≠ h) (subscriptions st name) →
        invocations_of f (log (emit body (S fuel) name args st2).2) =
        invocations_of f (log st)).
Proof.
  intros Hpre st1.
  destruct (once_pushes st name h c) as (r & Hget & Harr & Hlog).
  fold st1 in Hget, Harr, Hlog.
  exists (pruned name r (set_heap <[r := subscriptions st name ++ []]> st1)).
  assert (Hsubs : subscriptions
            (pruned name r (set_heap <[r := subscriptions st name ++ []]> st1)) name
          = subscriptions st name).
  { rewrite subscriptions_pruned by exact Hget. apply app_nil_r. }
  split; [| split; [exact Hsubs | split]].
  - apply (off_removes _ _ _ _ _ _ _ _ Hget Harr Hpre).
    apply once_matches_original.
  - now rewrite log_pruned.
  - intros f fuel args -> Hspies Hother.
    rewrite emit_spies_state by now rewrite Hsubs.
    rewrite Hsubs. simpl log. rewrite log_pruned. simpl log.
    rewrite Hlog, invocations_of_app, invocations_of_dispatched by exact Hother.
    lia.
Qed.

(** C9 (amended).  Take a subscription made by [once] around a function
    that returns without touching the emitter, preceded under its name
    only by plain subscriptions whose handlers do the same, and
    immediately followed by another subscription [s].  A single emit calls the earlier handlers
    and the handler given to [once]; the closure having spliced itself
    out, [s] now sits at the index just visited and the loop resumes one
    index further: [s] is not dispatched in that emit.  When the later
    subscriptions are such plain ones too, the emit returns having called
    them after the once handler, and [s], if it is one as well, is
    dispatched at its place by the next emit. *)
Theorem once_passes_over_next st name r pre w f c s post args fuel :
  reg_get st name = Arr r →
  array st r = pre ++ stored (VOnceHandler w name (VFunction f) c) c :: s :: post →
  Forall (spy body) pre → body f = [] →
  let st' := set_log (log st ++ dispatched args pre ++ [Invocation f c args])
               (set_heap <[r := pre ++ s :: post]> st) in
  emit body (S (S fuel)) name args st =
    forEach_loop r (dispatch body (S (S fuel)) args) (S (length post)) (S (length pre)) st'
  ∧ array st' r !! length pre = Some s
  ∧ (Forall (spy body) post →
       emit body (S (S fuel)) name args st =
         (Returns (), set_log (log st' ++ dispatched args post) st')
       ∧ (spy body s → ∀ args',
            emit body (S (S fuel)) name args'
              (set_log (log st' ++ dispatched args post) st') =
              (Returns (),
               set_log (log st' ++ dispatched args post
                               ++ dispatched args' (pre ++ s :: post)) st'))).
Proof.
  intros Hget Harr Hpre Hf st'.
  assert (Harr' : array st' r = pre ++ s :: post) by apply array_set_heap_eq.
  assert (Hget' : reg_get st' name = Arr r) by now apply reg_get_Arr; apply reg_get_Arr in Hget.
  assert (Hloop : emit body (S (S fuel)) name args st =
            forEach_loop r (dispatch body (S (S fuel)) args)
              (S (length post)) (S (length pre)) st').
  { rewrite (emit_once_slot body (S fuel) name args st r pre w _ c (s :: post) Hget Harr Hpre).
    unfold mbind, M_bind. rewrite (call_function _ _ _ _ _ _ Hf).
    rewrite log_pruned. simpl log. rewrite <- app_assoc.
    rewrite pruned_nonempty by (rewrite array_set_heap_eq; now destruct pre).
    reflexivity. }
  split; [exact Hloop |]. split; [rewrite Harr'; now apply list_lookup_middle |].
  intros Hpost.
  assert (Hone : emit body (S (S fuel)) name args st =
            (Returns (), set_log (log st' ++ dispatched args post) st')).
  { rewrite Hloop.
    pose proof (forEach_loop_spies body r (S fuel) args (S (length post)) 0
                  (S (length pre)) st') as Hl.
    assert (Hdrop : take (S (length post)) (drop (S (length pre)) (pre ++ s :: post)) = post).
    { replace (S (length pre)) with (length pre + 1) by lia.
      rewrite drop_app_add. simpl. rewrite drop_0. apply take_ge. lia. }
    rewrite Harr', Hdrop, Nat.add_0_r in Hl. now rewrite (Hl Hpost). }
  split; [exact Hone |].
  intros Hs args'.
  rewrite (emit_spies body (S fuel) name args' _ r).
  - rewrite array_set_log, Harr'. simpl log. now rewrite <- app_assoc.
  - now rewrite reg_get_set_log.
  - rewrite array_set_log, Harr'. apply Forall_app. split; [exact Hpre |].
    now constructor.
Qed.

(** C6 (what the code does instead).  While the registry has the
    prototype it was created with, [on] under the name [__proto__] makes
    a new array the prototype of the registry instead of giving it a
    property, and the subscription goes into that array.  When [off]
    removes it again, [delete] finds no property to remove: the name
    still reads as an array, which is now empty. *)
Theorem proto_name_keeps_empty_array st h c :
  proto st = None →
  let st1 := (on "__proto__" h c st).2 in
  ∃ r st2,
    reg_get st1 "__proto__" = Arr r ∧ array st1 r = [stored h c] ∧
    off "__proto__" h c st1 = (Returns (), st2) ∧
    reg_get st2 "__proto__" = Arr r ∧ array st2 r = [].
Proof.
  intros Hp st1.
  destruct (on_pushes st "__proto__" h c) as (r & Hget & Harr & _).
  fold st1 in Hget, Harr.
  assert (Hnone : subscriptions st "__proto__" = []).
  { unfold subscriptions, reg_get, inherited. now rewrite Hp. }
  rewrite Hnone in Harr. simpl in Harr.
  assert (Hself : matchesSubscription h (default_null c) (stored h c) = inr true).
  { unfold matchesSubscription, stored. simpl. now rewrite !loose_eq_refl. }
  exists r, (pruned "__proto__" r (set_heap <[r := [] ++ []]> st1)).
  split; [exact Hget |]. split; [exact Harr |]. split.
  - exact (off_removes st1 "__proto__" h c r [] (stored h c) [] Hget Harr
             (Forall_nil_2 _) Hself).
  - unfold pruned. rewrite array_set_heap_eq. simpl.
    split; [exact Hget | apply array_set_heap_eq].
Qed.

(** C7 (amended).  The function returned by [on] or [once] calls [off]
    with the name, handler and context it was bound to ([once] binds its
    closure; the context is [null] when none was given).  When the name
    does not read as a property that the registry inherits and the test
    of [off], with what the function was bound to, returns [false] on
    every other subscription under that name (none matches, and none
    makes the test throw, as a stored [null] or [undefined] handler
    does), the first call removes the subscription just made and a second
    call returns without changing anything.  Whenever it is called, in
    whatever state of the emitter, the function changes nothing under
    another name, and under its own name it removes nothing or the first
    subscription that matches what it was bound to; it does remove that
    one when the test returns [false] on those in front, so that a
    further call removes another registration of the same handler and
    context when there is one. *)
Theorem token_called_again st name h c t st1 :
  on name h c st = (Returns t, st1) ∨ once name h c st = (Returns t, st1) →
  reachable body st →
  (bound_name t = name ∧ bound_context t = default_null c ∧
   (on name h c st = (Returns t, st1) → bound_handler t = h) ∧
   (once name h c st = (Returns t, st1) →
    bound_handler t = VOnceHandler (next st) name h c) ∧
   ∀ st', invoke t st' = off name (bound_handler t) (bound_context t) st')
  ∧ (reg_get st name ≠ Other →
     unmatched (bound_handler t) (bound_context t) (subscriptions st name) →
     ∃ st2,
       invoke t st1 = (Returns (), st2) ∧
       subscriptions st2 name = subscriptions st name ∧
       invoke t st2 = (Returns (), st2))
  ∧ (∀ st' name', reachable body st' → name' ≠ name →
       subscriptions (invoke t st').2 name' = subscriptions st' name')
  ∧ (∀ st',
       subscriptions (invoke t st').2 name = subscriptions st' name ∨
       ∃ l1 s l2,
         subscriptions st' name = l1 ++ s :: l2 ∧
         unmatched (bound_handler t) (bound_context t) l1 ∧
         matchesSubscription (bound_handler t) (default_null (bound_context t)) s
           = inr true ∧
         subscriptions (invoke t st').2 name = l1 ++ l2)
  ∧ (∀ st' l1 s l2,
       subscriptions st' name = l1 ++ s :: l2 →
       unmatched (bound_handler t) (bound_context t) l1 →
       matchesSubscription (bound_handler t) (default_null (bound_context t)) s
         = inr true →
       ∃ st'', invoke t st' = (Returns (), st'') ∧
               subscriptions st'' name = l1 ++ l2).
Proof.
  intros Hmade Hreach.
  pose proof (reachable_wf body st Hreach) as Hwf.
  assert (Hh : (on name h c st = (Returns t, st1) → bound_handler t = h) ∧
               (once name h c st = (Returns t, st1) →
                bound_handler t = VOnceHandler (next st) name h c)).
  { split; intros H.
    - destruct (on_returns st name h c) as [st' Hst'].
      rewrite Hst' in H. now injection H as <- <-.
    - rewrite once_eq in H.
      destruct (on_returns (set_next (S (next st)) st) name
                  (VOnceHandler (next st) name h c) c) as [st' Hst'].
      rewrite Hst' in H. now injection H as <- <-. }
  assert (Hon : ∃ st0 h0, wf st0 ∧ reg_get st0 name = reg_get st name ∧
                  subscriptions st0 name = subscriptions st name ∧
                  t = Token name h0 (default_null c) ∧ st1 = (on name h0 c st0).2).
  { destruct Hmade as [H | H].
    - exists st, h. destruct (on_returns st name h c) as [st' Hst'].
      rewrite Hst' in H |- *. injection H as <- <-. auto.
    - exists (set_next (S (next st)) st), (VOnceHandler (next st) name h c).
      rewrite once_eq in H.
      destruct (on_returns (set_next (S (next st)) st) name
                  (VOnceHandler (next st) name h c) c) as [st' Hst'].
      rewrite Hst' in H |- *. injection H as <- <-.
      split; [apply wf_set_next; [lia | done] | auto]. }
  destruct Hon as (st0 & h0 & Hwf0 & Hget0 & Hsubs0 & Ht & ->).
  rewrite Ht in Hh |- *. clear Ht.
  split; [| split; [| split; [| split]]].
  - simpl. destruct Hh as [H1 H2]. auto.
  - intros Hother Hno. simpl in Hno.
    rewrite <- Hsubs0 in Hno |- *. rewrite <- Hget0 in Hother.
    now apply on_token_twice.
  - intros st' name' Hreach' Hne.
    apply off_other_names; [now apply (reachable_wf body) | done].
  - intros st'. apply off_removes_only_match.
  - intros st' l1 s l2 Hsubs Hl1 Hs.
    destruct (subscriptions_cons_inv _ _ _ _ _ Hsubs) as (r & Hget & Harr).
    exists (pruned name r (set_heap <[r := l1 ++ l2]> st')). split.
    + exact (off_removes _ _ _ _ _ _ _ _ Hget Harr Hl1 Hs).
    + now apply subscriptions_pruned.
Qed.

(** C10 (amended).  When a name holds a plain subscription whose stored
    context is [null], [off(name, undefined)] removes the first such
    subscription, whatever its handler: the handler carries no tag, and
    reading the tag gives [undefined], which [==] the [undefined]
    argument.  This holds provided no subscription in front of it was
    made by [once] around [null] or [undefined] with a [null] context,
    for that one matches through its tag as well and would go instead. *)
Theorem off_undefined_removes_plain st name pre s post :
  subscriptions st name = pre ++ s :: post →
  plain s = true → nullish (context s) = true →
  Forall (λ x, plain x && nullish (context x) = false) pre →
  Forall (λ x, wraps_nullish x && nullish (context x) = false) pre →
  ∃ st',
    off name VUndefined VUndefined st = (Returns (), st') ∧
    subscriptions st' name = pre ++ post.
Proof.
  intros Hsubs Hplain Hctx Hfirst Hwraps.
  destruct (subscriptions_cons_inv _ _ _ _ _ Hsubs) as (r & Hget & Harr).
  exists (pruned name r (set_heap <[r := pre ++ post]> st)).
  split.
  - apply (off_removes _ _ _ _ _ _ _ _ Hget Harr).
    + apply Forall_forall. intros x Hx. simpl.
      rewrite matches_undefined. f_equal.
      pose proof (proj1 (Forall_forall _ _) Hfirst x Hx) as H1.
      pose proof (proj1 (Forall_forall _ _) Hwraps x Hx) as H2. simpl in H1, H2.
      destruct (plain x), (wraps_nullish x), (nullish (context x)); done.
    + simpl. rewrite matches_undefined, Hplain, Hctx. reflexivity.
  - now apply subscriptions_pruned.
Qed.

(** C8 (what the code does instead).  While nothing is registered under
    a name that [Object.prototype] defines, such as [toString], [emit] of
    that name throws a [TypeError] and calls no handler: the registry
    inherits the property, its value is truthy and is not an array. *)
Theorem emit_inherited_name_throws st name fuel args :
  proto st = None → own st !! name = None →
  mem name object_prototype_keys = true →
  emit body fuel name args st = (Throws TypeError, st).
Proof.
  intros Hp Ho Hm. apply emit_other. now apply reg_get_inherited.
Qed.

(** C3 (what the code does instead).  While nothing is registered under
    a name that [Object.prototype] defines, such as [toString], [off]
    with that name throws a [TypeError], whatever the handler and the
    context. *)
Theorem off_inherited_name_throws st name h c :
  proto st = None → own st !! name = None →
  mem name object_prototype_keys = true →
  off name h c st = (Throws TypeError, st).
Proof.
  intros Hp Ho Hm. apply off_other. now apply reg_get_inherited.
Qed.

End Claims.

(** C1, as stated, fails when an earlier handler under the name throws:
    the emit is aborted before the new handler is reached. *)
Lemma on_then_emit_counterexample :
  let st0 := (on "event" (VFunction 0) VUndefined new_emitter).2 in
  let st1 := (on "event" (VFunction 1) VUndefined st0).2 in
  (emit scenario 3 "event" [] st1).1 = Throws (Thrown VNull) ∧
  invocations_of 1 (log (emit scenario 3 "event" [] st1).2) = 0.
Proof. vm_compute. split; reflexivity. Qed.

Lemma on_then_emit_witness :
  let st := (on "event" (VFunction 2) (VObject 7) new_emitter).2 in
  let st1 := (on "event" (VFunction 1) VUndefined st).2 in
  Forall (spy scenario) (subscriptions st "event") ∧
  emit scenario 1 "event" [VObject 3] st1 =
    (Returns (),
     set_log [Invocation 2 (VObject 7) [VObject 3]; Invocation 1 VNull [VObject 3]] st1).
Proof.
  assert (H : Forall (spy scenario)
                (subscriptions (on "event" (VFunction 2) (VObject 7) new_emitter).2 "event")).
  { repeat constructor. now exists 2. }
  split; [exact H |].
  exact (proj2 (on_then_emit_invokes_once scenario _ "event" (VFunction 1) VUndefined
                  [VObject 3] 0 H) 1 eq_refl eq_refl).
Defined.

(** C2, as stated, fails when an earlier handler under the name throws:
    the subscription made by [once] does not fire on the first emit. *)
Lemma once_counterexample :
  let st0 := (on "change" (VFunction 0) VUndefined new_emitter).2 in
  let st1 := (once "change" (VFunction 1) VUndefined st0).2 in
  (emit scenario 3 "change" [] st1).1 = Throws (Thrown VNull) ∧
  invocations_of 1 (log (emit scenario 3 "change" [] st1).2) = 0.
Proof. vm_compute. split; reflexivity. Qed.

Lemma once_fires_witness :
  let st := (on "change" (VFunction 2) VUndefined new_emitter).2 in
  let st1 := (once "change" (VFunction 1) (VObject 7) st).2 in
  Forall (spy scenario) (subscriptions st "change") ∧
  log (emits scenario 2 "change" [[VObject 3]; []; []] st1) =
    [Invocation 2 VNull [VObject 3]; Invocation 1 (VObject 7) [VObject 3];
     Invocation 2 VNull []; Invocation 2 VNull []].
Proof.
  assert (H : Forall (spy scenario)
                (subscriptions (on "change" (VFunction 2) VUndefined new_emitter).2 "change")).
  { repeat constructor. now exists 2. }
  split; [exact H |].
  exact (proj2 (once_fires_on_first_emit_only scenario _ "change" (VFunction 1)
                  (VObject 7) [VObject 3] 0 H) 1 [[]; []] eq_refl eq_refl).
Defined.



(** C5, as stated, fails when the handler is also registered with [on]
    in front: [off] removes that subscription, the one made by [once]
    stays and the next emit calls the handler. *)
Lemma off_once_counterexample :
  let st0 := (on "change" (VFunction 1) VUndefined new_emitter).2 in
  let st1 := (once "change" (VFunction 1) VUndefined st0).2 in
  let st2 := (off "change" (VFunction 1) VUndefined st1).2 in
  subscriptions st2 "change" =
    [stored (VOnceHandler 1 "change" (VFunction 1) VUndefined) VUndefined] ∧
  invocations_of 1 (log (emit scenario 3 "change" [] st2).2) = 1.
Proof. vm_compute. split; reflexivity. Qed.

Lemma off_removes_once_witness :
  let st := (on "change" (VFunction 2) VUndefined new_emitter).2 in
  unmatched (VFunction 1) (VObject 7) (subscriptions st "change") ∧
  ∃ st2,
    off "change" (VFunction 1) (VObject 7)
      (once "change" (VFunction 1) (VObject 7) st).2 = (Returns (), st2) ∧
    subscriptions st2 "change" = subscriptions st "change" ∧
    log st2 = log st ∧
    invocations_of 1 (log (emit scenario 1 "change" [] st2).2) = 0.
Proof.
  assert (H : unmatched (VFunction 1) (VObject 7)
                (subscriptions (on "change" (VFunction 2) VUndefined new_emitter).2
                   "change")).
  { repeat constructor. }
  split; [exact H |].
  destruct (off_removes_once_by_original scenario _ "change" (VFunction 1) (VObject 7) H)
    as (st2 & H1 & H2 & H3 & H4).
  exists st2. repeat split; try assumption.
  apply (H4 1 0 [] eq_refl).
  - repeat constructor. now exists 2.
  - repeat constructor. simpl. congruence.
Defined.

Lemma proto_name_witness :
  let st1 := (on "__proto__" (VFunction 1) VUndefined new_emitter).2 in
  ∃ r st2,
    reg_get st1 "__proto__" = Arr r ∧
    array st1 r = [stored (VFunction 1) VUndefined] ∧
    off "__proto__" (VFunction 1) VUndefined st1 = (Returns (), st2) ∧
    reg_get st2 "__proto__" = Arr r ∧ array st2 r = [].
Proof.
  apply (proto_name_keeps_empty_array new_emitter (VFunction 1) VUndefined).
  reflexivity.
Defined.

(** C7, as stated, fails when the same handler and context are registered
    twice under the name: the second call of the returned function
    removes the other registration. *)
Lemma token_counterexample :
  let st0 := (on "change" (VFunction 1) VUndefined new_emitter).2 in
  let t := Token "change" (VFunction 1) VNull in
  let st1 := (on "change" (VFunction 1) VUndefined st0).2 in
  let st2 := (invoke t st1).2 in
  let st3 := (invoke t st2).2 in
  (on "change" (VFunction 1) VUndefined st0).1 = Returns t ∧
  subscriptions st1 "change" =
    [stored (VFunction 1) VUndefined; stored (VFunction 1) VUndefined] ∧
  subscriptions st2 "change" = [stored (VFunction 1) VUndefined] ∧
  subscriptions st3 "change" = [].
Proof. vm_compute. repeat split; reflexivity. Qed.

Lemma token_called_again_witness :
  let st := (on "change" (VFunction 2) VUndefined new_emitter).2 in
  let t := Token "change" (VOnceHandler 1 "change" (VFunction 1) VUndefined) VNull in
  let st1 := (once "change" (VFunction 1) VUndefined st).2 in
  once "change" (VFunction 1) VUndefined st = (Returns t, st1) ∧
  reachable scenario st ∧ reg_get st "change" ≠ Other ∧
  unmatched (bound_handler t) (bound_context t) (subscriptions st "change") ∧
  (∃ st2, invoke t st1 = (Returns (), st2) ∧
          subscriptions st2 "change" = subscriptions st "change" ∧
          invoke t st2 = (Returns (), st2)) ∧
  subscriptions (invoke t (on "close" (VFunction 2) VUndefined st1).2).2 "close" =
    [stored (VFunction 2) VUndefined].
Proof.
  assert (H1 : once "change" (VFunction 1) VUndefined
                 (on "change" (VFunction 2) VUndefined new_emitter).2 =
               (Returns (Token "change" (VOnceHandler 1 "change" (VFunction 1) VUndefined) VNull),
                (once "change" (VFunction 1) VUndefined
                   (on "change" (VFunction 2) VUndefined new_emitter).2).2))
    by (vm_compute; reflexivity).
  assert (H2 : reachable scenario (on "change" (VFunction 2) VUndefined new_emitter).2)
    by (apply reachable_on, reachable_new).
  assert (H3 : reg_get (on "change" (VFunction 2) VUndefined new_emitter).2 "change" ≠ Other)
    by (vm_compute; discriminate).
  assert (H4 : unmatched (VOnceHandler 1 "change" (VFunction 1) VUndefined) VNull
                 (subscriptions (on "change" (VFunction 2) VUndefined new_emitter).2 "change"))
    by (repeat constructor).
  destruct (token_called_again scenario _ "change" (VFunction 1) VUndefined _ _
              (or_intror H1) H2) as (_ & Htwice & Hnames & _).
  split; [exact H1 |]. split; [exact H2 |]. split; [exact H3 |].
  split; [exact H4 |]. split; [exact (Htwice H3 H4) |].
  rewrite Hnames; [vm_compute; reflexivity | | discriminate].
  apply reachable_on, reachable_once, H2.
Defined.

(** C10, as stated, fails when a subscription made by [once] around
    [undefined] stands in front of the plain one: it is the one removed. *)
Lemma off_undefined_counterexample :
  let st0 := (once "change" VUndefined VUndefined new_emitter).2 in
  let st1 := (on "change" (VFunction 1) VUndefined st0).2 in
  subscriptions st1 "change" =
    [stored (VOnceHandler 0 "change" VUndefined VUndefined) VUndefined;
     stored (VFunction 1) VUndefined] ∧
  subscriptions (off "change" VUndefined VUndefined st1).2 "change" =
    [stored (VFunction 1) VUndefined].
Proof. vm_compute. split; reflexivity. Qed.

Lemma off_undefined_witness :
  let st0 := (once "change" (VFunction 1) VUndefined new_emitter).2 in
  let st1 := (on "change" (VFunction 2) (VObject 7) st0).2 in
  let st2 := (on "change" (VFunction 3) VUndefined st1).2 in
  let st3 := (on "change" (VFunction 4) VUndefined st2).2 in
  subscriptions st3 "change" =
    [stored (VOnceHandler 0 "change" (VFunction 1) VUndefined) VUndefined;
     stored (VFunction 2) (VObject 7); stored (VFunction 3) VUndefined;
     stored (VFunction 4) VUndefined] ∧
  ∃ st',
    off "change" VUndefined VUndefined st3 = (Returns (), st') ∧
    subscriptions st' "change" =
      [stored (VOnceHandler 0 "change" (VFunction 1) VUndefined) VUndefined;
       stored (VFunction 2) (VObject 7); stored (VFunction 4) VUndefined].
Proof.
  assert (H : subscriptions
    (on "change" (VFunction 4) VUndefined
       (on "change" (VFunction 3) VUndefined
          (on "change" (VFunction 2) (VObject 7)
             (once "change" (VFunction 1) VUndefined new_emitter).2).2).2).2 "change" =
    [stored (VOnceHandler 0 "change" (VFunction 1) VUndefined) VUndefined;
     stored (VFunction 2) (VObject 7)]
    ++ stored (VFunction 3) VUndefined :: [stored (VFunction 4) VUndefined])
    by (vm_compute; reflexivity).
  split; [exact H |].
  apply (off_undefined_removes_plain _ "change" _ _ _ H eq_refl eq_refl);
    repeat constructor.
Defined.

(** C9, as stated, fails when the subscription made by [once] itself
    follows another one made by [once]: of three subscriptions, the
    second made by [once] and immediately followed by the third, an emit
    calls the first and the third, and not the second. *)
Lemma once_passes_over_counterexample :
  let st0 := (once "change" (VFunction 1) VUndefined new_emitter).2 in
  let st1 := (once "change" (VFunction 2) VUndefined st0).2 in
  let st2 := (on "change" (VFunction 3) VUndefined st1).2 in
  log (emit scenario 3 "change" [] st2).2 =
    [Invocation 1 VUndefined []; Invocation 3 VNull []] ∧
  invocations_of 2 (log (emit scenario 3 "change" [] st2).2) = 0 ∧
  invocations_of 3 (log (emit scenario 3 "change" [] st2).2) = 1.
Proof. vm_compute. repeat split; reflexivity. Qed.

Lemma once_passes_over_witness :
  let st0 := (on "change" (VFunction 1) VUndefined new_emitter).2 in
  let st1 := (once "change" (VFunction 2) (VObject 7) st0).2 in
  let st2 := (on "change" (VFunction 3) VUndefined st1).2 in
  let st3 := (on "change" (VFunction 4) VUndefined st2).2 in
  let first := (emit scenario 2 "change" [VObject 9] st3).2 in
  reg_get st3 "change" = Arr 0 ∧
  emit scenario 2 "change" [VObject 9] st3 =
    (Returns (),
     set_log [Invocation 1 VNull [VObject 9]; Invocation 2 (VObject 7) [VObject 9];
              Invocation 4 VNull [VObject 9]]
       (set_heap <[0 := [stored (VFunction 1) VUndefined;
                         stored (VFunction 3) VUndefined;
                         stored (VFunction 4) VUndefined]]> st3)) ∧
  log (emit scenario 2 "change" [] first).2 =
    [Invocation 1 VNull [VObject 9]; Invocation 2 (VObject 7) [VObject 9];
     Invocation 4 VNull [VObject 9];
     Invocation 1 VNull []; Invocation 3 VNull []; Invocation 4 VNull []].
Proof.
  assert (Hget : reg_get
    (on "change" (VFunction 4) VUndefined
       (on "change" (VFunction 3) VUndefined
          (once "change" (VFunction 2) (VObject 7)
             (on "change" (VFunction 1) VUndefined new_emitter).2).2).2).2
    "change" = Arr 0) by (vm_compute; reflexivity).
  split; [exact Hget |].
  pose proof (once_passes_over_next scenario _ "change" 0
                [stored (VFunction 1) VUndefined] 1 2 (VObject 7)
                (stored (VFunction 3) VUndefined) [stored (VFunction 4) VUndefined]
                [VObject 9] 0 Hget) as H.
  destruct H as (_ & _ & H).
  - vm_compute. reflexivity.
  - repeat constructor. now exists 1.
  - reflexivity.
  - destruct H as [H1 H2].
    + repeat constructor. now exists 4.
    + split; [exact H1 |].
      rewrite H1. simpl snd. rewrite H2; [reflexivity |]. now exists 3.
Defined.

(** C8 at [new EventEmitter().emit("toString")]. *)
Lemma emit_inherited_name_witness :
  emit scenario 1 "toString" [] new_emitter = (Throws TypeError, new_emitter).
Proof.
  apply (emit_inherited_name_throws scenario new_emitter "toString" 1 []);
    reflexivity.
Defined.

(** C3 at [new EventEmitter().off("toString", handler)]. *)
Lemma off_inherited_name_witness :
  off "toString" (VFunction 1) VUndefined new_emitter = (Throws TypeError, new_emitter).
Proof.
  apply (off_inherited_name_throws new_emitter "toString" (VFunction 1) VUndefined);
    reflexivity.
Defined.

(** * Further properties of the methods *)

(** ** Auxiliary facts *)

Lemma find_app_throws p l1 s l2 e :
  Forall (λ x, p x = inr false) l1 → p s = inl e →
  find p (l1 ++ s :: l2) = inl e.
Proof.
  intros Hl1 Hs. induction Hl1 as [| x l1 Hx _ IH]; simpl.
  - now rewrite Hs.
  - now rewrite Hx.
Qed.

Lemma pruned_set_log L name r st :
  pruned name r (set_log L st) = set_log L (pruned name r st).
Proof.
  unfold pruned. rewrite array_set_log. destruct (array st r); [| done].
  unfold deleted, registry_delete. now destruct (String.eqb name "__proto__").
Qed.

(** [off] neither reads nor writes the record of calls. *)
Lemma off_set_log L name h c st :
  off name h c (set_log L st) =
    ((off name h c st).1, set_log L (off name h c st).2).
Proof.
  destruct (reg_get st name) as [r | |] eqn:E.
  - destruct (find (matchesSubscription h (default_null c)) (array st r))
      as [e | [s |]] eqn:Hfind.
    + assert (E' : reg_get (set_log L st) name = Arr r) by exact E.
      assert (Hfind' : find (matchesSubscription h (default_null c))
                         (array (set_log L st) r) = inl e) by exact Hfind.
      unfold off, mbind, M_bind, registry_get, read_array.
      now rewrite E', Hfind', E, Hfind.
    + destruct (find_found_inv _ _ _ Hfind) as (l1 & l2 & Harr & Hl1 & Hs).
      rewrite (off_removes _ _ _ _ _ _ _ _ E Harr Hl1 Hs).
      rewrite (off_removes (set_log L st) _ _ _ r l1 s l2); try done.
      simpl. f_equal.
      change (set_heap <[r := l1 ++ l2]> (set_log L st))
        with (set_log L (set_heap <[r := l1 ++ l2]> st)).
      apply pruned_set_log.
    + pose proof (find_none_inv _ _ Hfind) as Hno.
      rewrite (off_no_match _ _ _ _ _ E Hno).
      rewrite (off_no_match (set_log L st) _ _ _ r); try done.
      simpl. f_equal. apply pruned_set_log.
  - rewrite (off_falsy _ _ _ _ E), (off_falsy (set_log L st)) by done.
    simpl. f_equal. unfold deleted, registry_delete.
    now destruct (String.eqb name "__proto__").
  - now rewrite (off_other _ _ _ _ E), (off_other (set_log L st)) by done.
Qed.

Section Further.

Context (body : nat → list stmt).

(** X17.  In every state that an emitter reaches through calls of [on],
    [once], [emit] and [off], each own property of the registry object
    holds a non-empty array of subscriptions; [on] leaves a non-empty
    array to be read under its name; and when [off] removes the only
    subscription of an array held by an own property, the registry no
    longer has that property.  [__proto__] is never an own property. *)
Theorem registry_keys_hold_subscriptions st :
  reachable body st →
  (∀ name r, own st !! name = Some r → ∃ s l, heap st !! r = Some (s :: l))
  ∧ (∀ name h c, ∃ r s l,
        reg_get (on name h c st).2 name = Arr r ∧
        heap (on name h c st).2 !! r = Some (s :: l))
  ∧ (∀ name h c r s,
        own st !! name = Some r → heap st !! r = Some [s] →
        matchesSubscription h (default_null c) s = inr true →
        own (off name h c st).2 !! name = None)
  ∧ own st !! "__proto__" = None.
Proof.
  intros Hreach. pose proof (reachable_wf body st Hreach) as Hwf.
  split; [| split; [| split]]; [| | | exact (wf_proto_key _ Hwf)].
  - intros name r Ho. pose proof (wf_nonempty _ Hwf _ _ Ho) as Hne.
    unfold array in Hne. destruct (heap st !! r) as [[| s l] |]; try done. eauto.
  - intros name h c. destruct (on_pushes st name h c) as (r & Hget & Harr & _).
    unfold array in Harr. exists r.
    destruct (heap (on name h c st).2 !! r) as [[| s l] |]; simpl in Harr.
    + now destruct (subscriptions st name).
    + eauto.
    + now destruct (subscriptions st name).
  - intros name h c r s Ho Hheap Hs.
    assert (Hne : name ≠ "__proto__").
    { intros ->. rewrite (wf_proto_key _ Hwf) in Ho. discriminate. }
    assert (Hget : reg_get st name = Arr r) by (apply reg_get_Arr; auto).
    assert (Harr : array st r = [] ++ s :: []) by (unfold array; now rewrite Hheap).
    rewrite (off_removes _ _ _ _ _ _ _ _ Hget Harr (Forall_nil_2 _) Hs).
    simpl. unfold pruned. rewrite array_set_heap_eq. simpl.
    unfold deleted, registry_delete.
    destruct (String.eqb_spec name "__proto__"); [done |]. simpl.
    apply lookup_delete_eq.
Qed.

(** X1.  [off] removes the first subscription that matches and returns,
    provided its test returns [false] on every subscription in front
    (the test throws at a stored [null] or [undefined] handler when the
    handler looked for is neither).  Later subscriptions that match as
    well stay where they were, like all others, in their order, and no
    handler is called. *)
Theorem off_removes_oldest_match st name h c l1 s l2 :
  subscriptions st name = l1 ++ s :: l2 →
  unmatched h c l1 →
  matchesSubscription h (default_null c) s = inr true →
  ∃ st', off name h c st = (Returns (), st') ∧
         subscriptions st' name = l1 ++ l2 ∧
         log st' = log st.
Proof.
  intros Hsubs Hl1 Hs.
  destruct (subscriptions_cons_inv _ _ _ _ _ Hsubs) as (r & Hget & Harr).
  exists (pruned name r (set_heap <[r := l1 ++ l2]> st)). split; [| split].
  - exact (off_removes _ _ _ _ _ _ _ _ Hget Harr Hl1 Hs).
  - now apply subscriptions_pruned.
  - now rewrite log_pruned.
Qed.

(** X2.  In a state that an emitter reaches, [off] under a name that
    does not read as an inherited property returns and leaves the whole
    state as it was when its test returns [false] on every subscription
    under the name: none matches, and none makes the test throw, as a
    stored [null] or [undefined] handler does when the handler looked
    for is neither. *)
Theorem off_without_match_changes_nothing st name h c :
  reachable body st →
  reg_get st name ≠ Other →
  unmatched h c (subscriptions st name) →
  off name h c st = (Returns (), st).
Proof.
  intros Hreach Hother Hno. pose proof (reachable_wf body st Hreach) as Hwf.
  unfold subscriptions in Hno. destruct (reg_get st name) as [r | |] eqn:E.
  - rewrite (off_no_match _ _ _ _ _ E Hno). f_equal.
    unfold pruned. destruct (array st r) eqn:Harr; [| done].
    apply reg_get_Arr in E as [[-> _] | [_ Ho]]; [reflexivity |].
    now destruct (wf_nonempty _ Hwf _ _ Ho).
  - rewrite (off_falsy _ _ _ _ E). f_equal.
    destruct (String.eqb_spec name "__proto__") as [-> | Hne]; [reflexivity |].
    apply deleted_absent. destruct (own st !! name) as [r |] eqn:Ho; [| done].
    assert (reg_get st name = Arr r) by (apply reg_get_Arr; auto). congruence.
  - done.
Qed.

(** X3.  While the registry has the prototype it was created with, a
    name under which nothing is registered and which [Object.prototype]
    does not define is unknown to the emitter: [emit] calls nothing,
    [off] removes nothing, both return and leave the state as it was. *)
Theorem unknown_name_is_ignored st name fuel args h c :
  proto st = None → own st !! name = None →
  mem name object_prototype_keys = false →
  emit body fuel name args st = (Returns (), st) ∧
  off name h c st = (Returns (), st).
Proof.
  intros Hp Ho Hm.
  assert (Hne : name ≠ "__proto__") by (intros ->; discriminate).
  assert (Hget : reg_get st name = Falsy).
  { rewrite (reg_get_no_own _ _ Hne Ho). unfold inherited. now rewrite Hp, Hm. }
  split; [now apply emit_falsy |].
  rewrite (off_falsy _ _ _ _ Hget). f_equal. now apply deleted_absent.
Qed.

(** X4.  A subscription whose stored handler is [null] or [undefined]
    stops [off] short: when no subscription in front of it matches and
    the handler looked for is neither, [off] throws a [TypeError] while
    reading the tag of that stored handler, and removes nothing, not even
    a matching subscription further on. *)
Theorem off_throws_at_nullish_handler st name h c l1 s l2 :
  subscriptions st name = l1 ++ s :: l2 →
  unmatched h c l1 →
  nullish (handler s) = true → nullish h = false →
  off name h c st = (Throws TypeError, st).
Proof.
  intros Hsubs Hl1 Hs Hh.
  destruct (subscriptions_cons_inv _ _ _ _ _ Hsubs) as (r & Hget & Harr).
  assert (Hthrow : matchesSubscription h (default_null c) s = inl TypeError).
  { unfold matchesSubscription, nullish in *.
    destruct (handler s), h; simpl in *; try discriminate; reflexivity. }
  unfold off, mbind, M_bind, registry_get, read_array.
  now rewrite Hget, Harr, (find_app_throws _ _ _ _ _ Hl1 Hthrow).
Qed.

(** X5.  [emit] does not isolate errors.  When the subscriptions in
    front are plain ones whose handlers return without touching the
    emitter and the call of the next handler throws, [emit] throws the
    same error from the state in which that call ended: no subscription
    further on is dispatched. *)
Theorem emit_stops_at_first_throw st name args fuel pre s post e st' :
  subscriptions st name = pre ++ s :: post →
  Forall (spy body) pre →
  call body (S fuel) (handler s) (context s) args
    (set_log (log st ++ dispatched args pre) st) = (Throws e, st') →
  emit body (S fuel) name args st = (Throws e, st').
Proof.
  intros Hsubs Hpre Hcall.
  destruct (subscriptions_cons_inv _ _ _ _ _ Hsubs) as (r & Hget & Harr).
  rewrite (emit_at _ _ _ _ _ _ Hget), Harr, length_app. simpl length.
  pose proof (forEach_loop_spies body r fuel args (length pre) (S (length post)) 0 st) as Hl.
  rewrite drop_0, Harr, take_app_length in Hl. rewrite (Hl Hpre). simpl (0 + _).
  set (st1 := set_log _ st) in *.
  assert (Hk : array st1 r !! length pre = Some s).
  { unfold st1. rewrite array_set_log, Harr. now apply list_lookup_middle. }
  rewrite (forEach_loop_step _ _ _ _ _ _ Hk). unfold dispatch. now rewrite Hcall.
Qed.

(** *** Handlers that change the registry during an emit *)










(** *** One name at a time *)

Lemma subscriptions_frame st st' name :
  (∀ r, reg_get st' name = Arr r ↔ reg_get st name = Arr r) →
  (∀ r, reg_get st name = Arr r → array st' r = array st r) →
  subscriptions st' name = subscriptions st name.
Proof.
  intros Hget Harr. unfold subscriptions.
  destruct (reg_get st name) as [r | |] eqn:E.
  - rewrite (proj2 (Hget r) eq_refl). now apply Harr.
  - destruct (reg_get st' name) as [r' | |] eqn:E'; try done.
    discriminate (proj1 (Hget r') eq_refl).
  - destruct (reg_get st' name) as [r' | |] eqn:E'; try done.
    discriminate (proj1 (Hget r') eq_refl).
Qed.

(** [on(name, ...)] changes what no other name lists. *)
Lemma on_other_names st name h c name' :
  wf st → name' ≠ name →
  subscriptions (on name h c st).2 name' = subscriptions st name'.
Proof.
  intros Hwf Hne. destruct (reg_get st name) as [r | |] eqn:E.
  - rewrite (on_existing _ _ _ _ _ E). simpl.
    now apply (subscriptions_set_heap_ne _ name).
  - rewrite on_new by congruence. simpl. apply subscriptions_frame.
    + intros r. rewrite !reg_get_Arr. unfold assigned, registry_set.
      destruct (String.eqb_spec name "__proto__") as [-> | Hn]; simpl.
      * split; intros [[? _] | H]; try congruence; now right.
      * rewrite lookup_insert_ne by congruence. tauto.
    + intros r [[-> Hp] | [_ Ho]]%reg_get_Arr.
      * pose proof (wf_proto_allocated _ Hwf _ Hp).
        rewrite array_set_heap_ne by lia. now rewrite array_assigned.
      * pose proof (wf_allocated _ Hwf _ _ Ho).
        rewrite array_set_heap_ne by lia. now rewrite array_assigned.
  - rewrite on_new by congruence. simpl. apply subscriptions_frame.
    + intros r. rewrite !reg_get_Arr. unfold assigned, registry_set.
      destruct (String.eqb_spec name "__proto__") as [-> | Hn]; simpl.
      * split; intros [[? _] | H]; try congruence; now right.
      * rewrite lookup_insert_ne by congruence. tauto.
    + intros r [[-> Hp] | [_ Ho]]%reg_get_Arr.
      * pose proof (wf_proto_allocated _ Hwf _ Hp).
        rewrite array_set_heap_ne by lia. now rewrite array_assigned.
      * pose proof (wf_allocated _ Hwf _ _ Ho).
        rewrite array_set_heap_ne by lia. now rewrite array_assigned.
Qed.

(** X9.  In a state that an emitter reaches, [on], [once] and [off]
    under one name change nothing of what any other name lists. *)
Theorem other_names_are_untouched st name name' h c :
  reachable body st → name' ≠ name →
  subscriptions (on name h c st).2 name' = subscriptions st name' ∧
  subscriptions (once name h c st).2 name' = subscriptions st name' ∧
  subscriptions (off name h c st).2 name' = subscriptions st name'.
Proof.
  intros Hreach Hne. pose proof (reachable_wf body st Hreach) as Hwf.
  split; [| split].
  - now apply on_other_names.
  - rewrite once_eq.
    rewrite on_other_names; [reflexivity | | exact Hne].
    apply wf_set_next; [lia | exact Hwf].
  - now apply off_other_names.
Qed.

(** X11.  [on] and [once] return for every name, handler and context,
    also for a name that the registry inherits and for a handler that
    cannot be called: they give back a function bound to the name, to
    the handler ([once]: to the closure it has just made) and to the
    context, [null] standing in for [undefined], and call no handler. *)
Theorem on_and_once_always_return st name h c :
  ∃ st1 st2,
    on name h c st = (Returns (Token name h (default_null c)), st1) ∧
    once name h c st =
      (Returns (Token name (VOnceHandler (next st) name h c) (default_null c)), st2) ∧
    log st1 = log st ∧ log st2 = log st.
Proof.
  destruct (on_returns st name h c) as [st1 H1].
  destruct (once_returns st name h c) as [st2 H2].
  exists st1, st2. split; [exact H1 |]. split; [exact H2 |]. split.
  - destruct (on_pushes st name h c) as (_ & _ & _ & Hlog). now rewrite H1 in Hlog.
  - destruct (once_pushes st name h c) as (_ & _ & _ & Hlog). now rewrite H2 in Hlog.
Qed.

(** X12.  Calling the function returned by [on] stops delivery: the
    emits made before reach the handler, those made after do not.  The
    statement is for a handler that is a function returning without
    touching the emitter and for a name that does not read as an
    inherited property, with the other subscriptions plain ones whose
    handlers return without touching the emitter as well and none of
    them matching the handler and context just registered. *)
Theorem unsubscribing_stops_delivery st name f c before after fuel :
  reachable body st →
  reg_get st name ≠ Other →
  Forall (spy body) (subscriptions st name) →
  unmatched (VFunction f) c (subscriptions st name) →
  body f = [] →
  let st1 := (on name (VFunction f) c st).2 in
  let st2 := emits body (S fuel) name before st1 in
  ∃ st3,
    invoke (Token name (VFunction f) (default_null c)) st2 = (Returns (), st3) ∧
    log (emits body (S fuel) name after st3) =
      log st ++ flat_map (λ a, dispatched a
                                 (subscriptions st name ++ [stored (VFunction f) c])) before
             ++ flat_map (λ a, dispatched a (subscriptions st name)) after.
Proof.
  intros Hreach Hother Hpre Hno Hf st1 st2.
  pose proof (reachable_wf body st Hreach) as Hwf.
  assert (Hno' : unmatched (VFunction f) (default_null c) (subscriptions st name)).
  { unfold unmatched in *. now rewrite default_null_idemp. }
  destruct (on_token_twice st name (VFunction f) c Hwf Hother Hno')
    as (st1' & Hfirst & Hsubs' & _).
  fold st1 in Hfirst.
  assert (Hsubs1 : subscriptions st1 name = subscriptions st name ++ [stored (VFunction f) c])
    by apply subscriptions_on.
  assert (Hlog1 : log st1 = log st).
  { destruct (on_pushes st name (VFunction f) c) as (_ & _ & _ & Hlog). exact Hlog. }
  assert (Hspies1 : Forall (spy body) (subscriptions st1 name)).
  { rewrite Hsubs1. apply Forall_app. split; [exact Hpre |].
    constructor; [now exists f | constructor]. }
  assert (Hst2 : st2 = set_log (log st1 ++ flat_map (λ a, dispatched a (subscriptions st1 name)) before) st1)
    by now apply emits_spies.
  exists (set_log (log st2) st1'). split.
  - unfold invoke in Hfirst |- *. simpl in Hfirst.
    simpl bound_name. simpl bound_handler. simpl bound_context.
    rewrite Hst2, off_set_log, Hfirst. reflexivity.
  - rewrite emits_spies by (rewrite subscriptions_set_log, Hsubs'; exact Hpre).
    rewrite subscriptions_set_log, Hsubs'. simpl log.
    rewrite Hst2. simpl log. rewrite Hlog1, Hsubs1. now rewrite <- app_assoc.
Qed.

(** X13.  Once a subscription made by [once] has fired, the function
    that [once] returned finds nothing to remove: calling it returns and
    leaves the state as it was.  The statement is for a handler that is
    a function returning without touching the emitter and for a name
    that does not read as an inherited property, with the other
    subscriptions plain ones whose handlers return without touching the
    emitter as well. *)
Theorem fired_once_token_changes_nothing st name f c args fuel :
  reachable body st →
  reg_get st name ≠ Other →
  Forall (spy body) (subscriptions st name) →
  body f = [] →
  let st1 := (once name (VFunction f) c st).2 in
  let st2 := (emit body (S (S fuel)) name args st1).2 in
  invoke (Token name (VOnceHandler (next st) name (VFunction f) c) (default_null c)) st2
    = (Returns (), st2).
Proof.
  intros Hreach Hother Hpre Hf st1 st2.
  pose proof (reachable_wf body st Hreach) as Hwf.
  destruct (once_pushes st name (VFunction f) c) as (r & Hget & Harr & Hlog).
  fold st1 in Hget, Harr, Hlog.
  assert (Hemit : st2 = set_log (log st1 ++ dispatched args (subscriptions st name)
                                   ++ [Invocation f c args] ++ dispatched args (tail []))
                          (pruned name r (set_heap <[r := subscriptions st name ++ []]> st1))).
  { unfold st2.
    now rewrite (emit_once_spies body fuel name args st1 r _ _ f c []
                   Hget Harr Hpre Hf (Forall_nil_2 _)). }
  assert (Hwf0 : wf (set_next (S (next st)) st)) by (apply wf_set_next; [lia | done]).
  destruct (on_token_twice (set_next (S (next st)) st) name
              (VOnceHandler (next st) name (VFunction f) c) c Hwf0 Hother
              (spies_unmatched body _ _ _ _ _ _ Hpre))
    as (st1' & Hfirst & _ & Hsecond).
  assert (Hst1 : (on name (VOnceHandler (next st) name (VFunction f) c) c
                    (set_next (S (next st)) st)).2 = st1) by reflexivity.
  rewrite Hst1 in Hfirst.
  rewrite (self_removal body st1 name r _ _ _ c [] Hget Harr Hpre) in Hfirst.
  injection Hfirst as <-.
  rewrite Hemit. unfold invoke in *. simpl bound_name in *. simpl bound_handler in *.
  simpl bound_context in *. rewrite off_set_log, Hsecond. reflexivity.
Qed.

(** X14.  A name that [Object.prototype] defines, other than
    [__proto__], can be subscribed to while the registry has the
    prototype it was created with and no property of that name: [on]
    gives it an array of its own, and [emit] then dispatches to the
    handler, a function that returns without touching the emitter.  When
    the subscription is removed the array goes, the inherited property
    shows again, and [emit] of the name throws a [TypeError] as before. *)
Theorem inherited_name_comes_back st name f c args fuel :
  proto st = None → own st !! name = None →
  mem name object_prototype_keys = true → name ≠ "__proto__" →
  body f = [] →
  let st1 := (on name (VFunction f) c st).2 in
  emit body (S fuel) name args st1 =
    (Returns (), set_log (log st ++ [Invocation f (default_null c) args]) st1) ∧
  ∃ st2, off name (VFunction f) c st1 = (Returns (), st2) ∧
         emit body (S fuel) name args st2 = (Throws TypeError, st2).
Proof.
  intros Hp Ho Hm Hne Hf st1.
  pose proof (reg_get_inherited _ _ Hp Ho Hm) as Hget.
  assert (Hst1 : st1 = set_heap <[next st := [stored (VFunction f) c]]>
                         (assigned name (next st) (set_next (S (next st)) st))).
  { unfold st1. rewrite on_new; [reflexivity | congruence]. }
  assert (Hget1 : reg_get st1 name = Arr (next st)).
  { rewrite Hst1. apply reg_get_set_heap_Arr, reg_get_assigned. }
  assert (Harr1 : array st1 (next st) = [stored (VFunction f) c]).
  { rewrite Hst1. apply array_set_heap_eq. }
  assert (Hlog1 : log st1 = log st).
  { rewrite Hst1. simpl. now rewrite log_assigned. }
  split.
  - rewrite (emit_spies body fuel name args st1 _ Hget1).
    + now rewrite Harr1, Hlog1.
    + rewrite Harr1. constructor; [now exists f | constructor].
  - exists (pruned name (next st) (set_heap <[next st := [] ++ []]> st1)). split.
    + apply (off_removes _ _ _ _ _ [] _ [] Hget1 Harr1 (Forall_nil_2 _)).
      unfold matchesSubscription, stored. simpl.
      now rewrite Nat.eqb_refl, loose_eq_refl.
    + apply emit_other, reg_get_inherited; try done.
      * unfold pruned. rewrite array_set_heap_eq. simpl.
        unfold deleted, registry_delete. destruct (String.eqb name "__proto__"); simpl;
          rewrite Hst1; simpl; unfold assigned, registry_set;
          destruct (String.eqb_spec name "__proto__"); simpl; congruence.
      * unfold pruned. rewrite array_set_heap_eq. simpl.
        unfold deleted, registry_delete.
        destruct (String.eqb_spec name "__proto__"); [done |]. simpl.
        apply lookup_delete_eq.
Qed.

(** X16.  A subscription made by [once] and removed through the
    function that [once] returned never fires: the emits that follow
    call the other handlers only.  The statement is for a name that does
    not read as an inherited property, with the other subscriptions plain
    ones whose handlers return without touching the emitter. *)
Theorem unsubscribed_once_never_fires st name h c argss fuel :
  reachable body st →
  reg_get st name ≠ Other →
  Forall (spy body) (subscriptions st name) →
  let st1 := (once name h c st).2 in
  ∃ st2,
    invoke (Token name (VOnceHandler (next st) name h c) (default_null c)) st1
      = (Returns (), st2) ∧
    log (emits body (S fuel) name argss st2) =
      log st ++ flat_map (λ a, dispatched a (subscriptions st name)) argss.
Proof.
  intros Hreach Hother Hpre st1.
  pose proof (reachable_wf body st Hreach) as Hwf.
  assert (Hwf0 : wf (set_next (S (next st)) st)) by (apply wf_set_next; [lia | done]).
  destruct (on_token_twice (set_next (S (next st)) st) name
              (VOnceHandler (next st) name h c) c Hwf0 Hother
              (spies_unmatched body _ _ _ _ _ _ Hpre))
    as (st2 & Hfirst & Hsubs & _).
  exists st2. split; [exact Hfirst |].
  assert (Hsubs' : subscriptions st2 name = subscriptions st name) by exact Hsubs.
  rewrite emits_spies by now rewrite Hsubs'.
  rewrite Hsubs'. simpl log. f_equal.
  destruct (on_pushes (set_next (S (next st)) st) name
              (VOnceHandler (next st) name h c) c) as (r & Hget & Harr & Hlog).
  rewrite (self_removal body _ name r (subscriptions st name) _ h c [] Hget Harr Hpre)
    in Hfirst.
  injection Hfirst as <-. rewrite log_pruned. exact Hlog.
Qed.

End Further.

(** ** The closures made by [once] are all different *)

Lemma closure_below_mono n m s : n ≤ m → closure_below n s → closure_below m s.
Proof.
  unfold closure_below. destruct (handler s); try done. intros ? [? ?]. split; [lia | done].
Qed.

Lemma closures_allocated_heap r l st :
  closures_allocated st → Forall (closure_below (next st)) l →
  closures_allocated (set_heap <[r := l]> st).
Proof.
  intros H Hl r'. destruct (decide (r = r')) as [<- | Hne].
  - now rewrite array_set_heap_eq.
  - rewrite array_set_heap_ne by done. apply H.
Qed.

Lemma closures_allocated_next n st :
  next st ≤ n → closures_allocated st → closures_allocated (set_next n st).
Proof.
  intros Hn H r. eapply Forall_impl; [apply (H r) |].
  intros s. now apply closure_below_mono.
Qed.

Lemma closures_allocated_deleted name st :
  closures_allocated st → closures_allocated (deleted name st).
Proof.
  intros H r. rewrite array_deleted.
  unfold deleted, registry_delete. destruct (String.eqb name "__proto__"); apply H.
Qed.

Lemma closures_allocated_pruned name r st :
  closures_allocated st → closures_allocated (pruned name r st).
Proof.
  intros H. unfold pruned.
  destruct (array st r); [now apply closures_allocated_deleted | done].
Qed.

Lemma closures_allocated_assigned name r st :
  closures_allocated st → closures_allocated (assigned name r st).
Proof.
  intros H r'. rewrite array_assigned.
  unfold assigned, registry_set. destruct (String.eqb name "__proto__"); apply H.
Qed.

Lemma keeps_ret {A : Type} (a : A) : keeps (mret a).
Proof. intros st H. exact H. Qed.

Lemma keeps_bind {A B : Type} (m : M A) (k : A → M B) :
  keeps m → (∀ a, keeps (k a)) → keeps (m ≫= k).
Proof.
  intros Hm Hk st H. unfold mbind, M_bind. specialize (Hm st H).
  destruct (m st) as [[a | e |] st']; simpl in *; [now apply Hk | done | done].
Qed.

Lemma on_keeps st name h c :
  closures_allocated st → closure_below (next st) (stored h c) →
  closures_allocated (on name h c st).2.
Proof.
  intros H Hh. destruct (reg_get st name) as [r | |] eqn:E.
  - rewrite (on_existing _ _ _ _ _ E). simpl. apply closures_allocated_heap; [done |].
    apply Forall_app. split; [apply H | now constructor].
  - rewrite on_new by congruence. simpl.
    apply closures_allocated_heap.
    + apply closures_allocated_assigned, closures_allocated_next; [simpl; lia | done].
    + constructor; [| constructor].
      apply (closure_below_mono (next st)); [| exact Hh].
      unfold assigned, registry_set. destruct (String.eqb name "__proto__"); simpl; lia.
  - rewrite on_new by congruence. simpl.
    apply closures_allocated_heap.
    + apply closures_allocated_assigned, closures_allocated_next; [simpl; lia | done].
    + constructor; [| constructor].
      apply (closure_below_mono (next st)); [| exact Hh].
      unfold assigned, registry_set. destruct (String.eqb name "__proto__"); simpl; lia.
Qed.

Lemma closure_free_below n h c : closure_free h → closure_below n (stored h c).
Proof. unfold closure_below, stored. simpl. now destruct h. Qed.

Lemma keeps_on name h c : closure_free h → keeps (on name h c).
Proof. intros Hh st H. apply on_keeps; [done | now apply closure_free_below]. Qed.

Lemma keeps_once name h c : closure_free h → keeps (once name h c).
Proof.
  intros Hh st H. rewrite once_eq. apply on_keeps.
  - apply closures_allocated_next; [lia | done].
  - unfold closure_below, stored. simpl. split; [lia | done].
Qed.

Lemma keeps_off name h c : keeps (off name h c).
Proof.
  intros st H. destruct (reg_get st name) as [r | |] eqn:E.
  - destruct (find (matchesSubscription h (default_null c)) (array st r))
      as [e | [s |]] eqn:Hfind.
    + unfold off, mbind, M_bind, registry_get, read_array.
      now rewrite E, Hfind.
    + destruct (find_found_inv _ _ _ Hfind) as (l1 & l2 & Harr & Hl1 & Hs).
      rewrite (off_removes _ _ _ _ _ _ _ _ E Harr Hl1 Hs). simpl.
      apply closures_allocated_pruned, closures_allocated_heap; [done |].
      pose proof (H r) as Hr. rewrite Harr in Hr.
      apply Forall_app in Hr as [H1 H2]. apply Forall_cons in H2 as [_ H2].
      apply Forall_app. now split.
    + rewrite (off_no_match _ _ _ _ _ E (find_none_inv _ _ Hfind)).
      now apply closures_allocated_pruned.
  - rewrite (off_falsy _ _ _ _ E). now apply closures_allocated_deleted.
  - now rewrite (off_other _ _ _ _ E).
Qed.

Lemma keeps_forEach_loop r cb n k :
  (∀ s, keeps (cb s)) → keeps (forEach_loop r cb n k).
Proof.
  intros Hcb. revert k. induction n as [| n IH]; intros k; [apply keeps_ret |].
  simpl. apply keeps_bind; [intros st H; exact H | intros l].
  apply keeps_bind; [| intros _; apply IH].
  destruct (l !! k); [apply Hcb | apply keeps_ret].
Qed.

Lemma keeps_emit_with call name args :
  (∀ f this, keeps (call f this args)) → keeps (emit_with call name args).
Proof.
  intros Hcall. apply keeps_bind; [intros st H; exact H | intros v].
  destruct v; [| apply keeps_ret | intros st H; exact H].
  apply keeps_bind; [intros st H; exact H | intros l].
  apply keeps_forEach_loop. intros s. apply Hcall.
Qed.

Lemma keeps_run emit code :
  (∀ name args, keeps (emit name args)) → Forall caller_stmt code →
  keeps (run emit code).
Proof.
  intros Hemit. induction 1 as [| s code Hs _ IH]; [apply keeps_ret |].
  simpl. apply keeps_bind; [| intros; apply IH].
  destruct s; simpl in *.
  - apply keeps_bind; [now apply keeps_on | intros; apply keeps_ret].
  - apply keeps_bind; [now apply keeps_once | intros; apply keeps_ret].
  - apply keeps_off.
  - apply Hemit.
  - intros st H; exact H.
Qed.

Section Closures.

Context (body : nat → list stmt).

(** The body of every function of the caller hands the emitter values
    of the caller. *)
Hypothesis caller_body : ∀ f, Forall caller_stmt (body f).

Lemma keeps_call fuel f this args : keeps (call body fuel f this args).
Proof.
  revert f this args. induction fuel as [| fuel IH]; intros f this args;
    [intros st H; exact H |].
  destruct f; simpl; try (intros st H; exact H).
  - apply keeps_bind; [intros st H; exact H | intros _].
    apply keeps_run; [| apply caller_body]. intros name args'.
    apply keeps_emit_with. intros; apply IH.
  - apply keeps_bind; [apply keeps_off | intros _; apply IH].
Qed.

Lemma caller_reachable_closures st :
  caller_reachable body st → closures_allocated st.
Proof.
  induction 1.
  - intros r. unfold array. simpl. now rewrite lookup_empty.
  - now apply keeps_on.
  - now apply keeps_once.
  - now apply keeps_off.
  - apply keeps_emit_with; [| done]. intros. apply keeps_call.
Qed.

Lemma caller_reachable_reachable st :
  caller_reachable body st → reachable body st.
Proof. induction 1; now constructor. Qed.

(** A closure newer than anything stored matches no stored handler that
    can be read for a tag. *)
Lemma new_closure_unmatched n name h c c' l :
  Forall (closure_below n) l →
  Forall (λ s, nullish (handler s) = false) l →
  unmatched (VOnceHandler n name h c) c' l.
Proof.
  intros Hl Hn. unfold unmatched.
  apply Forall_forall. intros s Hs.
  pose proof (proj1 (Forall_forall _ _) Hl s Hs) as H1.
  pose proof (proj1 (Forall_forall _ _) Hn s Hs) as H2.
  unfold matchesSubscription, closure_below, nullish in *.
  destruct (handler s) as [| | o | g | w n' h' c'']; simpl in *; try done.
  destruct H1 as [Hw Hfree].
  assert (Nat.eqb w n = false) as -> by (apply Nat.eqb_neq; lia).
  now destruct h'.
Qed.

(** X15.  Every call of [once] makes a closure of its own, so the
    function that [once] returns can only ever remove the subscription
    made by that call.  In every state that an emitter reaches when
    callers hand it their own values as handlers, and for a name that
    does not read as an inherited property and lists no [null] or
    [undefined] handler, the first call of the returned function removes
    that subscription, leaving what was listed before, and a second call
    returns without changing anything. *)
Theorem once_token_removes_its_own_subscription st name h c :
  caller_reachable body st →
  closure_free h →
  reg_get st name ≠ Other →
  Forall (λ s, nullish (handler s) = false) (subscriptions st name) →
  ∃ t st1 st2,
    once name h c st = (Returns t, st1) ∧
    invoke t st1 = (Returns (), st2) ∧
    subscriptions st2 name = subscriptions st name ∧
    invoke t st2 = (Returns (), st2).
Proof.
  intros Hreach Hh Hother Hnull.
  pose proof (reachable_wf body st (caller_reachable_reachable st Hreach)) as Hwf.
  pose proof (caller_reachable_closures st Hreach) as Hcl.
  assert (Hwf0 : wf (set_next (S (next st)) st)) by (apply wf_set_next; [lia | done]).
  assert (Hno : unmatched (VOnceHandler (next st) name h c) (default_null c)
                  (subscriptions (set_next (S (next st)) st) name)).
  { apply new_closure_unmatched; [| exact Hnull].
    change (subscriptions (set_next (S (next st)) st) name) with (subscriptions st name).
    unfold subscriptions. destruct (reg_get st name); [apply Hcl | constructor | constructor]. }
  destruct (on_token_twice (set_next (S (next st)) st) name
              (VOnceHandler (next st) name h c) c Hwf0 Hother Hno)
    as (st2 & Hfirst & Hsubs & Hsecond).
  destruct (once_returns st name h c) as [st1 Hst1].
  exists (Token name (VOnceHandler (next st) name h c) (default_null c)), st1, st2.
  split; [exact Hst1 |].
  assert (Heq : (on name (VOnceHandler (next st) name h c) c
                   (set_next (S (next st)) st)).2 = st1).
  { rewrite <- once_eq. now rewrite Hst1. }
  rewrite Heq in Hfirst. auto.
Qed.

End Closures.

(** ** The further properties on examples *)

Lemma off_removes_oldest_witness :
  let st := (on "change" (VFunction 1) VUndefined
               (on "change" (VFunction 2) VUndefined
                  (on "change" (VFunction 1) VUndefined new_emitter).2).2).2 in
  ∃ st', off "change" (VFunction 1) VUndefined st = (Returns (), st') ∧
         subscriptions st' "change" =
           [stored (VFunction 2) VUndefined; stored (VFunction 1) VUndefined] ∧
         log st' = log st.
Proof.
  intros st. apply (off_removes_oldest_match st "change" (VFunction 1) VUndefined []
           (stored (VFunction 1) VUndefined)
           [stored (VFunction 2) VUndefined; stored (VFunction 1) VUndefined]).
  - vm_compute. reflexivity.
  - constructor.
  - reflexivity.
Defined.

Lemma off_without_match_witness :
  let st := (on "change" (VFunction 1) (VObject 7) new_emitter).2 in
  off "change" (VFunction 1) (VObject 8) st = (Returns (), st).
Proof.
  apply (off_without_match_changes_nothing scenario).
  - apply reachable_on, reachable_new.
  - vm_compute. discriminate.
  - repeat constructor.
Defined.

Lemma unknown_name_witness :
  let st := (on "change" (VFunction 1) VUndefined new_emitter).2 in
  emit scenario 1 "error" [VObject 3] st = (Returns (), st) ∧
  off "error" (VFunction 1) VUndefined st = (Returns (), st).
Proof.
  apply (unknown_name_is_ignored scenario); vm_compute; reflexivity.
Defined.

Lemma off_throws_at_nullish_witness :
  let st := (on "change" (VFunction 1) VUndefined
               (on "change" VUndefined VUndefined new_emitter).2).2 in
  off "change" (VFunction 1) VUndefined st = (Throws TypeError, st).
Proof.
  intros st. apply (off_throws_at_nullish_handler st "change" (VFunction 1) VUndefined []
           (stored VUndefined VUndefined) [stored (VFunction 1) VUndefined]).
  - vm_compute. reflexivity.
  - constructor.
  - reflexivity.
  - reflexivity.
Defined.

Lemma emit_stops_witness :
  let st := (on "change" (VFunction 2) VUndefined
               (on "change" (VFunction 13) VUndefined
                  (on "change" (VFunction 1) VUndefined new_emitter).2).2).2 in
  emit reentrant 1 "change" [] st =
    (Throws (Thrown (VObject 0)),
     set_log [Invocation 1 VNull []; Invocation 13 VNull []] st).
Proof.
  intros st. apply (emit_stops_at_first_throw reentrant st "change" [] 0
           [stored (VFunction 1) VUndefined] (stored (VFunction 13) VUndefined)
           [stored (VFunction 2) VUndefined]).
  - vm_compute. reflexivity.
  - spy_list.
  - vm_compute. reflexivity.
Defined.




Lemma other_names_witness :
  let st := (on "change" (VFunction 1) VUndefined new_emitter).2 in
  subscriptions (on "close" (VFunction 1) VUndefined st).2 "change" =
    [stored (VFunction 1) VUndefined] ∧
  subscriptions (once "close" (VFunction 1) VUndefined st).2 "change" =
    [stored (VFunction 1) VUndefined] ∧
  subscriptions (off "close" (VFunction 1) VUndefined st).2 "change" =
    [stored (VFunction 1) VUndefined].
Proof.
  apply (other_names_are_untouched scenario
           (on "change" (VFunction 1) VUndefined new_emitter).2
           "close" "change" _ VUndefined).
  - apply reachable_on, reachable_new.
  - discriminate.
Defined.


Lemma unsubscribing_stops_delivery_witness :
  let st1 := (on "change" (VFunction 1) VUndefined new_emitter).2 in
  let st2 := emits scenario 1 "change" [[]; []] st1 in
  ∃ st3, invoke (Token "change" (VFunction 1) VNull) st2 = (Returns (), st3) ∧
         log (emits scenario 1 "change" [[]] st3) =
           [Invocation 1 VNull []; Invocation 1 VNull []].
Proof.
  apply (unsubscribing_stops_delivery scenario new_emitter "change" 1 VUndefined
           [[]; []] [[]] 0).
  - apply reachable_new.
  - vm_compute. discriminate.
  - constructor.
  - constructor.
  - reflexivity.
Defined.

Lemma fired_once_token_witness :
  let st := (on "change" (VFunction 2) VUndefined new_emitter).2 in
  let st1 := (once "change" (VFunction 1) VUndefined st).2 in
  let st2 := (emit scenario 2 "change" [] st1).2 in
  invoke (Token "change" (VOnceHandler 1 "change" (VFunction 1) VUndefined) VNull) st2
    = (Returns (), st2).
Proof.
  apply (fired_once_token_changes_nothing scenario
           (on "change" (VFunction 2) VUndefined new_emitter).2 "change" 1 VUndefined [] 0).
  - apply reachable_on, reachable_new.
  - vm_compute. discriminate.
  - spy_list.
  - reflexivity.
Defined.

Lemma inherited_name_comes_back_witness :
  let st1 := (on "constructor" (VFunction 1) VUndefined new_emitter).2 in
  emit scenario 1 "constructor" [VObject 3] st1 =
    (Returns (), set_log [Invocation 1 VNull [VObject 3]] st1) ∧
  ∃ st2, off "constructor" (VFunction 1) VUndefined st1 = (Returns (), st2) ∧
         emit scenario 1 "constructor" [VObject 3] st2 = (Throws TypeError, st2).
Proof.
  apply (inherited_name_comes_back scenario new_emitter "constructor" 1 VUndefined
           [VObject 3] 0); try reflexivity.
  discriminate.
Defined.

Lemma unsubscribed_once_witness :
  let st := (on "change" (VFunction 2) VUndefined new_emitter).2 in
  let st1 := (once "change" (VFunction 1) VUndefined st).2 in
  ∃ st2,
    invoke (Token "change" (VOnceHandler 1 "change" (VFunction 1) VUndefined) VNull) st1
      = (Returns (), st2) ∧
    log (emits scenario 1 "change" [[]; []] st2) =
      [Invocation 2 VNull []; Invocation 2 VNull []].
Proof.
  apply (unsubscribed_once_never_fires scenario
           (on "change" (VFunction 2) VUndefined new_emitter).2 "change"
           (VFunction 1) VUndefined [[]; []] 0).
  - apply reachable_on, reachable_new.
  - vm_compute. discriminate.
  - spy_list.
Defined.

Lemma once_token_witness :
  let st := (emit reentrant 2 "change" []
               (once "change" (VFunction 3) VUndefined
                  (on "change" (VFunction 10) VUndefined new_emitter).2).2).2 in
  subscriptions st "change" =
    [stored (VFunction 10) VUndefined; stored (VFunction 1) VUndefined] ∧
  ∃ t st1 st2,
    once "change" (VFunction 1) VUndefined st = (Returns t, st1) ∧
    invoke t st1 = (Returns (), st2) ∧
    subscriptions st2 "change" = subscriptions st "change" ∧
    invoke t st2 = (Returns (), st2).
Proof.
  split; [vm_compute; reflexivity |].
  apply (once_token_removes_its_own_subscription reentrant).
  - intros f. do 15 (destruct f as [| f]; [repeat constructor |]). constructor.
  - apply caller_emit, caller_once, caller_on, caller_new; exact I.
  - exact I.
  - vm_compute. discriminate.
  - vm_compute. repeat constructor.
Defined.

Lemma registry_keys_witness :
  let st := (emit scenario 2 "change" []
               (once "change" (VFunction 2) VUndefined
                  (on "change" (VFunction 1) VUndefined new_emitter).2).2).2 in
  reachable scenario st ∧
  own st !! "change" = Some 0 ∧
  (∃ s l, heap st !! 0 = Some (s :: l)) ∧
  own (off "change" (VFunction 1) VUndefined st).2 !! "change" = None.
Proof.
  assert (H : reachable scenario
    (emit scenario 2 "change" []
       (once "change" (VFunction 2) VUndefined
          (on "change" (VFunction 1) VUndefined new_emitter).2).2).2).
  { apply reachable_emit, reachable_once, reachable_on, reachable_new. }
  destruct (registry_keys_hold_subscriptions scenario _ H) as (Hkeys & _ & Hlast & _).
  split; [exact H |]. split; [vm_compute; reflexivity |]. split.
  - apply (Hkeys "change"). vm_compute. reflexivity.
  - apply (Hlast "change" (VFunction 1) VUndefined 0 (stored (VFunction 1) VUndefined));
      vm_compute; reflexivity.
Defined.
